(** * isoperiod: ISO 8601 repeating periods

    A shallow embedding of [parse.go] (package [isoperiod]): the [Period]
    record, [New], [Parse], [String], [Next] and the goroutine behind
    [Start]/[Stop], together with models of the Go library functions the
    package calls ([regexp], [strconv.Atoi], [strconv.Itoa], [time.Duration]
    arithmetic).

    Conventions.
    - A Go [string] is a sequence of bytes: [gostring := list ascii].  The
      pattern of the package only has ASCII atoms, and every byte of a
      multi-byte UTF-8 rune is >= 0x80, so matching byte by byte and matching
      rune by rune agree on it.
    - Go's [int] is taken at 64 bits and kept as a [Z] in
      [[-2^63, 2^63)]; [time.Duration] is an [int64] count of nanoseconds
      whose [*] and [+] wrap around ([wrap64]).
    - A Go result pair of a [Period] pointer and an [error] is a pair of
      options ([None] is [nil]). *)

From Stdlib Require Import String Ascii ZArith List Bool Lia.
Import ListNotations.

Local Open Scope Z_scope.

(** ** Strings and characters *)

Definition gostring : Type := list ascii.

Definition str (s : string) : gostring := list_ascii_of_string s.

Definition code (c : ascii) : Z := Z.of_N (N_of_ascii c).

(** The class [\d] of Go's regexp syntax: ASCII [0-9]. *)
Definition is_digit (c : ascii) : bool := (48 <=? code c) && (code c <=? 57).

Definition digit_val (c : ascii) : Z := code c - 48.

Definition digit_char (d : Z) : ascii := ascii_of_N (Z.to_N (48 + d)).

Definition nonempty (s : gostring) : bool :=
  match s with [] => false | _ :: _ => true end.

Fixpoint str_eqb (a b : gostring) : bool :=
  match a, b with
  | [], [] => true
  | x :: a', y :: b' => Ascii.eqb x y && str_eqb a' b'
  | _, _ => false
  end.

(** ** Go integers and durations *)

Definition maxInt : Z := 2 ^ 63 - 1.
Definition minInt : Z := - 2 ^ 63.

Definition in_int (z : Z) : Prop := minInt <= z <= maxInt.

(** Two's-complement reduction of a mathematical integer to [int64]. *)
Definition wrap64 (z : Z) : Z := (z + 2 ^ 63) mod 2 ^ 64 - 2 ^ 63.

Module Duration.
Definition Nanosecond : Z := 1.
Definition Second : Z := 1000000000.
Definition Minute : Z := 60 * Second.
Definition Hour : Z := 60 * Minute.
Definition mul (a b : Z) : Z := wrap64 (a * b).
Definition add (a b : Z) : Z := wrap64 (a + b).
End Duration.

(** ** Errors *)

Inductive numerr : Type := ErrSyntax | ErrRange.

Inductive goerror : Type :=
| errorString (msg : gostring)                 (* errors.New(msg) *)
| NumError (Func Num : gostring) (Err : numerr).   (* a strconv.NumError *)

(** ** strconv *)

(** Value of a run of decimal digits, most significant first. *)
Definition decimal_value (ds : gostring) : Z :=
  fold_left (fun acc c => acc * 10 + digit_val c) ds 0.

(** [strconv.Atoi]: an optional sign, then one or more decimal digits; a
    value outside [int] is a range error (with the clamped value). *)
Definition Atoi (s : gostring) : Z * option goerror :=
  let syntax := (0, Some (NumError (str "Atoi") s ErrSyntax)) in
  let '(neg, ds) :=
    match s with
    | c :: t =>
        if Ascii.eqb c "+" then (false, t)
        else if Ascii.eqb c "-" then (true, t)
        else (false, s)
    | [] => (false, s)
    end in
  if nonempty ds && forallb is_digit ds then
    let v := if neg then - decimal_value ds else decimal_value ds in
    if v <? minInt then (minInt, Some (NumError (str "Atoi") s ErrRange))
    else if maxInt <? v then (maxInt, Some (NumError (str "Atoi") s ErrRange))
    else (v, None)
  else syntax.

(** Decimal digits of a non-negative number, pushed in front of [acc]. *)
Fixpoint utoa (fuel : nat) (n : Z) (acc : gostring) : gostring :=
  match fuel with
  | O => acc
  | S f =>
      if n <? 10 then digit_char n :: acc
      else utoa f (n / 10) (digit_char (n mod 10) :: acc)
  end.

(** [strconv.Itoa] on a 64-bit [int]: at most 20 digits. *)
Definition Itoa (n : Z) : gostring :=
  if n <? 0 then "-"%char :: utoa 20 (- n) [] else utoa 20 n [].

(** ** regexp: a backtracking matcher with leftmost-first semantics *)

Inductive regex : Type :=
| Chr (a : ascii)              (* a literal byte *)
| Digit                        (* \d *)
| Cat (r1 r2 : regex)          (* r1 r2 *)
| Opt (r : regex)              (* r?  (greedy) *)
| Plus (r : regex)             (* r+  (greedy) *)
| Cap (i : nat) (r : regex).   (* (r), capture group number i *)

(** Text of the capture groups, by group number; a group that did not take
    part in the match holds the empty string, as in
    [FindStringSubmatch]. *)
Definition caps : Type := list gostring.

Fixpoint upd (i : nat) (v : gostring) (c : caps) : caps :=
  match i, c with
  | _, [] => []
  | O, _ :: c' => v :: c'
  | S i', x :: c' => x :: upd i' v c'
  end.

Definition orelse {A : Type} (x y : option A) : option A :=
  match x with Some _ => x | None => y end.

(** The text consumed between the input [s] and its suffix [s1]. *)
Definition consumed (s s1 : gostring) : gostring :=
  firstn (length s - length s1)%nat s.

Section Matcher.
Context {A : Type}.

Definition cont : Type := gostring -> caps -> option A.

(** Greedy iteration: one more round of [body] first, and only then the
    continuation.  [n] bounds the rounds; every round consumes input. *)
Fixpoint plus_loop (body : gostring -> caps -> cont -> option A) (k : cont)
         (n : nat) (s : gostring) (c : caps) : option A :=
  match n with
  | O => None
  | S n' => body s c (fun s1 c1 => orelse (plus_loop body k n' s1 c1) (k s1 c1))
  end.

(** [rmatch r s c k]: match [r] at the head of [s], then run [k] on the
    rest; alternatives are tried in the order of a backtracking search. *)
Fixpoint rmatch (r : regex) (s : gostring) (c : caps) (k : cont) {struct r}
  : option A :=
  match r with
  | Chr a =>
      match s with
      | x :: s' => if Ascii.eqb x a then k s' c else None
      | [] => None
      end
  | Digit =>
      match s with
      | x :: s' => if is_digit x then k s' c else None
      | [] => None
      end
  | Cat r1 r2 => rmatch r1 s c (fun s1 c1 => rmatch r2 s1 c1 k)
  | Opt r1 => orelse (rmatch r1 s c k) (k s c)
  | Plus r1 => plus_loop (rmatch r1) k (S (length s)) s c
  | Cap i r1 => rmatch r1 s c (fun s1 c1 => k s1 (upd i (consumed s s1) c1))
  end.
End Matcher.

(** A numeric field with its unit letter: [(\d+U)?] as group [i]. *)
Definition field (i : nat) (u : ascii) : regex :=
  Opt (Cap i (Cat (Plus Digit) (Chr u))).

(** [(R)?(\d+)?/?P(\d+Y)?(\d+M)?(\d+D)?(T)?(\d+H)?(\d+M)?(\d+S)?] *)
Definition compiler : regex :=
  Cat (Opt (Cap 1 (Chr "R")))
 (Cat (Opt (Cap 2 (Plus Digit)))
 (Cat (Opt (Chr "/"))
 (Cat (Chr "P")
 (Cat (field 3 "Y")
 (Cat (field 4 "M")
 (Cat (field 5 "D")
 (Cat (Opt (Cap 6 (Chr "T")))
 (Cat (field 7 "H")
 (Cat (field 8 "M")
      (field 9 "S")))))))))).

Definition no_caps : caps := repeat [] 10.

(** A match that starts exactly at the head of [s]: group 0 is the whole
    match. *)
Definition match_here (s : gostring) : option caps :=
  rmatch compiler s no_caps (fun s1 c1 => Some (upd 0 (consumed s s1) c1)).

(** [compiler.FindStringSubmatch(s)]: the match at the leftmost start
    position that has one; [nil] (the empty slice) when there is none. *)
Fixpoint FindStringSubmatch (s : gostring) : list gostring :=
  match match_here s with
  | Some c => c
  | None =>
      match s with
      | [] => []
      | _ :: s' => FindStringSubmatch s'
      end
  end.

(** [matches[i]] *)
Definition index (matches : list gostring) (i : nat) : gostring :=
  nth i matches [].

(** [m[:len(m)-1]] *)
Definition chop (m : gostring) : gostring := firstn (length m - 1)%nat m.

(** ** The Period record *)

(** State of the [done] channel of a period, as far as [Start] and [Stop]
    can tell it apart. *)
Inductive chan : Type := chan_nil | chan_open | chan_closed.

Record Period : Type := mkPeriod {
  Repetitions : Z;
  Year : Z;
  Month : Z;
  Day : Z;
  Hour : Z;
  Minute : Z;
  Second : Z;
  time : Z;          (* time.Duration *)
  done : chan;
  running : bool
}.

Definition set_Repetitions (r : Period) (v : Z) : Period :=
  mkPeriod v (Year r) (Month r) (Day r) (Hour r) (Minute r) (Second r)
           (time r) (done r) (running r).
Definition set_Year (r : Period) (v : Z) : Period :=
  mkPeriod (Repetitions r) v (Month r) (Day r) (Hour r) (Minute r) (Second r)
           (time r) (done r) (running r).
Definition set_Month (r : Period) (v : Z) : Period :=
  mkPeriod (Repetitions r) (Year r) v (Day r) (Hour r) (Minute r) (Second r)
           (time r) (done r) (running r).
Definition set_Day (r : Period) (v : Z) : Period :=
  mkPeriod (Repetitions r) (Year r) (Month r) v (Hour r) (Minute r) (Second r)
           (time r) (done r) (running r).
Definition set_Hour (r : Period) (v : Z) : Period :=
  mkPeriod (Repetitions r) (Year r) (Month r) (Day r) v (Minute r) (Second r)
           (time r) (done r) (running r).
Definition set_Minute (r : Period) (v : Z) : Period :=
  mkPeriod (Repetitions r) (Year r) (Month r) (Day r) (Hour r) v (Second r)
           (time r) (done r) (running r).
Definition set_Second (r : Period) (v : Z) : Period :=
  mkPeriod (Repetitions r) (Year r) (Month r) (Day r) (Hour r) (Minute r) v
           (time r) (done r) (running r).
Definition set_time (r : Period) (v : Z) : Period :=
  mkPeriod (Repetitions r) (Year r) (Month r) (Day r) (Hour r) (Minute r)
           (Second r) v (done r) (running r).
Definition set_done (r : Period) (v : chan) : Period :=
  mkPeriod (Repetitions r) (Year r) (Month r) (Day r) (Hour r) (Minute r)
           (Second r) (time r) v (running r).
Definition set_running (r : Period) (v : bool) : Period :=
  mkPeriod (Repetitions r) (Year r) (Month r) (Day r) (Hour r) (Minute r)
           (Second r) (time r) (done r) v.

(** ** New *)

(** [New(now, repitions, year, month, day, hour, minute, second)]; [now] is
    not used by the function. *)
Definition New {T : Type} (now : T)
    (repitions year month day hour minute second : Z) : Period :=
  let h := Duration.mul hour Duration.Hour in
  let m := Duration.mul minute Duration.Minute in
  let s := Duration.mul second Duration.Second in
  let t := Duration.add (Duration.add h m) s in
  mkPeriod repitions year month day hour minute second t chan_nil false.

(** ** Parse *)

Definition invalid_format : goerror :=
  errorString (str "invalid repeat format").

(** What a block of [Parse] leaves: the updated [result], or the error of
    its [return nil, err]. *)
Definition step : Type := Period + goerror.

(** [v, err = strconv.Atoi(num); if err != nil { return nil, err }] *)
Definition convert (num : gostring) (k : Z -> Period) : step :=
  match Atoi num with
  | (v, None) => inl (k v)
  | (_, Some err) => inr err
  end.

(** [if matches[1] == "R" { ... }] *)
Definition parse_repetitions (matches : list gostring) (result : Period)
  : step :=
  if str_eqb (index matches 1) (str "R") then
    let result := set_Repetitions result (-1) in
    if nonempty (index matches 2) then
      convert (index matches 2) (set_Repetitions result)
    else inl result
  else inl result.

(** The block of a calendar field [F], for the non-empty group [i]:
    [result.F, err = strconv.Atoi(matches[i][:len(matches[i])-1])]. *)
Definition parse_calendar (matches : list gostring) (i : nat)
    (set : Period -> Z -> Period) (result : Period) : step :=
  if nonempty (index matches i) then
    convert (chop (index matches i)) (set result)
  else inl result.

(** The same for a clock field, followed by
    [result.time += time.Duration(result.F) * unit]. *)
Definition parse_clock (matches : list gostring) (i : nat)
    (set : Period -> Z -> Period) (unit : Z) (result : Period) : step :=
  if nonempty (index matches i) then
    convert (chop (index matches i))
      (fun v =>
         let result := set result v in
         set_time result (Duration.add (time result) (Duration.mul v unit)))
  else inl result.

Definition and_then (x : step) (f : Period -> step) : step :=
  match x with
  | inl result => f result
  | inr err => inr err
  end.

Definition parse_fields (matches : list gostring) (result : Period) : step :=
  and_then (parse_repetitions matches result) (fun result =>
  and_then (parse_calendar matches 3 set_Year result) (fun result =>
  and_then (parse_calendar matches 4 set_Month result) (fun result =>
  and_then (parse_calendar matches 5 set_Day result) (fun result =>
  and_then (parse_clock matches 7 set_Hour Duration.Hour result) (fun result =>
  and_then (parse_clock matches 8 set_Minute Duration.Minute result)
           (parse_clock matches 9 set_Second Duration.Second)))))).

Definition Parse (s : gostring) : option Period * option goerror :=
  let result := mkPeriod 0 0 0 0 0 0 0 0 chan_nil false in
  let matches := FindStringSubmatch s in
  if (length matches =? 0)%nat then (None, Some invalid_format)
  else
    match parse_fields matches result with
    | inr err => (None, Some err)
    | inl result => (Some result, None)
    end.

(** ** String *)

Definition String (r : Period) : gostring :=
  let result : gostring := [] in
  let timeAdded := false in
  let tAdded := false in
  let result :=
    if Repetitions r =? 0 then result ++ str "R/"
    else if Repetitions r >? 0 then
      result ++ ((str "R" ++ Itoa (Repetitions r)) ++ str "/")
    else result in
  let result := result ++ str "P" in
  let '(result, timeAdded) :=
    if Year r >? 0 then (result ++ (Itoa (Year r) ++ str "Y"), true)
    else (result, timeAdded) in
  let '(result, timeAdded) :=
    if Month r >? 0 then (result ++ (Itoa (Month r) ++ str "M"), true)
    else (result, timeAdded) in
  let '(result, timeAdded) :=
    if Day r >? 0 then (result ++ (Itoa (Day r) ++ str "D"), true)
    else (result, timeAdded) in
  let '(result, timeAdded, tAdded) :=
    if Hour r >? 0 then
      (result ++ ((str "T" ++ Itoa (Hour r)) ++ str "H"), true, true)
    else (result, timeAdded, tAdded) in
  let '(result, timeAdded, tAdded) :=
    if Minute r >? 0 then
      let '(result, tAdded) :=
        if negb tAdded then (result ++ str "T", true) else (result, tAdded) in
      (result ++ (Itoa (Minute r) ++ str "M"), true, tAdded)
    else (result, timeAdded, tAdded) in
  let '(result, timeAdded, tAdded) :=
    if Second r >? 0 then
      let '(result, tAdded) :=
        if negb tAdded then (result ++ str "T", true) else (result, tAdded) in
      (result ++ (Itoa (Second r) ++ str "S"), true, tAdded)
    else (result, timeAdded, tAdded) in
  let result := if negb timeAdded then result ++ str "T0S" else result in
  result.

(** ** Next *)

(** The host clock ([time.Time]): the zero value [time.Time{}],
    [Time.AddDate] and [Time.Add]. *)
Class Clock : Type := {
  Time : Type;
  zeroTime : Time;
  AddDate : Time -> Z -> Z -> Z -> Time;
  Add : Time -> Z -> Time
}.

(** [r.Next(now)].  The receiver is a pointer: the function returns the
    period as the call leaves it, and the result. *)
Definition Next `{Clock} (r : Period) (now : Time) : Period * Time :=
  if Repetitions r =? 0 then (r, zeroTime)
  else
    let h := Duration.mul Duration.Hour (Hour r) in
    let m := Duration.mul Duration.Minute (Minute r) in
    let s := Duration.mul Duration.Second (Second r) in
    (r, Add (AddDate now (Year r) (Month r) (Day r))
            (Duration.add (Duration.add h m) s)).

(** ** Start and Stop *)

(** The goroutine of [Start] and its environment, as a transition system.
    One transition is one round of the goroutine's [for]/[select] loop, or
    the first half of a call of [Stop] (up to its send on [r.done]); the
    environment (scheduler, ticker, consumer, callers of [Stop]) picks the
    events, and the transitions are interleaved one at a time. *)

Inductive phase : Type :=
| Spawned      (* [go func()] was issued, the body has not run yet *)
| Looping      (* blocked in the outer [select] *)
| Exited.      (* returned; the deferred calls have run *)

Record stream `{Clock} : Type := mkStream {
  period : Period;          (* the receiver [r]: its [done] and [running] *)
  amount : Z;               (* the goroutine's countdown *)
  sender : chan;            (* the channel handed to the consumer *)
  ticking : bool;           (* the ticker has not been stopped *)
  at_phase : phase;
  emitted : list Time;      (* values the consumer received, oldest first *)
  waiting : nat;            (* callers of [Stop] blocked in [r.done <- true] *)
  crashed : bool            (* a send on the closed [r.done] has panicked *)
}.

Arguments mkStream {_} _ _ _ _ _ _ _ _.

Inductive event `{Clock} : Type :=
| Run                                   (* the goroutine body begins *)
| Tick (t : Time) (receiving : bool)    (* [ticker.C] delivers [t]; the
                                           consumer is, or is not, waiting
                                           on the stream *)
| TakeDone                              (* the [select] takes [<-r.done] *)
| CallStop.                             (* some caller runs [r.Stop()] *)

Arguments Run {_}.
Arguments Tick {_} _ _.
Arguments TakeDone {_}.
Arguments CallStop {_}.

Inductive outcome : Type :=
| Returned     (* the call returned without sending *)
| Waiting      (* the call is blocked in its send on [r.done] *)
| Panicked.    (* send on a closed channel *)

Section Scheduler.
Context `{Clock}.

(** [r.Start()] up to the [go] statement. *)
Definition Start (r : Period) : stream :=
  mkStream (set_done r chan_open) (Repetitions r) chan_open true Spawned []
           O false.

(** The deferred calls, last registered first: [r.running = false],
    [close(r.done)], [close(sender)], [ticker.Stop()].  Closing [r.done]
    makes the senders still blocked on it panic. *)
Definition exit_goroutine (st : stream) : stream :=
  mkStream (set_done (set_running (period st) false) chan_closed)
           (amount st) chan_closed false Exited (emitted st)
           O (crashed st || negb (waiting st =? 0)%nat).

(** [case t := <-ticker.C:] with its non-blocking send to the consumer, the
    countdown, and the return when the countdown reaches 0 (the non-blocking
    send on [r.done] before it finds no receiver). *)
Definition on_tick (st : stream) (t : Time) (receiving : bool) : stream :=
  let out := if receiving then emitted st ++ [t] else emitted st in
  let amount := if amount st >? 0 then amount st - 1 else amount st in
  let st := mkStream (period st) amount (sender st) (ticking st)
                     (at_phase st) out (waiting st) (crashed st) in
  if amount =? 0 then exit_goroutine st else st.

(** [case <-r.done:] one blocked sender gets through, the goroutine
    returns. *)
Definition on_done (st : stream) : stream :=
  match waiting st with
  | O => st
  | S n =>
      exit_goroutine
        (mkStream (period st) (amount st) (sender st) (ticking st)
                  (at_phase st) (emitted st) n (crashed st))
  end.

(** [r.Stop()], up to the point where it returns or blocks. *)
Definition Stop (st : stream) : stream * outcome :=
  if negb (running (period st)) then (st, Returned)
  else
    match done (period st) with
    | chan_nil => (st, Waiting)
    | chan_closed =>
        (mkStream (period st) (amount st) (sender st) (ticking st)
                  (at_phase st) (emitted st) (waiting st) true, Panicked)
    | chan_open =>
        (mkStream (period st) (amount st) (sender st) (ticking st)
                  (at_phase st) (emitted st) (S (waiting st)) (crashed st),
         Waiting)
    end.

Definition react (st : stream) (e : event) : stream :=
  if crashed st then st
  else
    match e with
    | Run =>
        match at_phase st with
        | Spawned =>
            mkStream (set_running (period st) true) (amount st) (sender st)
                     (ticking st) Looping (emitted st) (waiting st)
                     (crashed st)
        | _ => st
        end
    | Tick t receiving =>
        match at_phase st with
        | Looping => on_tick st t receiving
        | _ => st
        end
    | TakeDone =>
        match at_phase st with
        | Looping => on_done st
        | _ => st
        end
    | CallStop => fst (Stop st)
    end.

Definition run (evs : list event) (st : stream) : stream :=
  fold_left react evs st.

Definition is_tick (e : event) : bool :=
  match e with Tick _ _ => true | _ => false end.
End Scheduler.

Arguments Itoa : simpl never.

(** ** The canonical text, as the specification words it *)

(** [<v><unit>] for a strictly positive component, nothing otherwise. *)
Definition part (v : Z) (unit : ascii) : gostring :=
  if 0 <? v then Itoa v ++ [unit] else [].

Definition canonical_prefix (p : Period) : gostring :=
  if Repetitions p =? 0 then str "R/"
  else if 0 <? Repetitions p then str "R" ++ Itoa (Repetitions p) ++ str "/"
  else [].

Definition any_clock (p : Period) : bool :=
  (0 <? Hour p) || (0 <? Minute p) || (0 <? Second p).

Definition any_calendar (p : Period) : bool :=
  (0 <? Year p) || (0 <? Month p) || (0 <? Day p).

Definition canonical (p : Period) : gostring :=
  canonical_prefix p
  ++ str "P"
  ++ part (Year p) "Y" ++ part (Month p) "M" ++ part (Day p) "D"
  ++ (if any_clock p
      then str "T" ++ part (Hour p) "H" ++ part (Minute p) "M"
                   ++ part (Second p) "S"
      else [])
  ++ (if any_calendar p || any_clock p then [] else str "T0S").

(** ** Periods *)

(** The all-zero period [Parse] starts from. *)
Definition zero_period : Period := mkPeriod 0 0 0 0 0 0 0 0 chan_nil false.

(** The periods the package hands out: built by [New], or returned by a
    successful [Parse]. *)
Definition produced (p : Period) : Prop :=
  (exists (T : Type) (now : T) rep y mo d h mi s, p = New now rep y mo d h mi s)
  \/ (exists text, Parse text = (Some p, None)).

(** The duration [h] hours + [m] minutes + [s] seconds in nanoseconds, as a
    mathematical integer. *)
Definition clock_ns (h m s : Z) : Z := (h * 3600 + m * 60 + s) * 1000000000.

(** The repetition count and the six components of two periods agree. *)
Definition same_fields (p q : Period) : Prop :=
  Repetitions p = Repetitions q /\ Year p = Year q /\ Month p = Month q /\
  Day p = Day q /\ Hour p = Hour q /\ Minute p = Minute q /\
  Second p = Second q.

(** The six components of a period are Go [int]s that are not negative. *)
Definition natural_fields (p : Period) : Prop :=
  0 <= Year p <= maxInt /\ 0 <= Month p <= maxInt /\ 0 <= Day p <= maxInt /\
  0 <= Hour p <= maxInt /\ 0 <= Minute p <= maxInt /\ 0 <= Second p <= maxInt.

(** A clock that records the calls made on it: a time is a reference
    instant, the zero time, or the result of an [AddDate] or an [Add]. *)
Inductive recorded : Type :=
| instant (n : nat)
| zero_instant
| add_date (t : recorded) (years months days : Z)
| add_duration (t : recorded) (d : Z).

#[export] Instance recording_clock : Clock := {|
  Time := recorded;
  zeroTime := zero_instant;
  AddDate := add_date;
  Add := add_duration
|}.

(** ** The groups of a match and what Parse makes of them *)

(** One or more digits. *)
Definition all_digits (ds : gostring) : Prop :=
  ds <> [] /\ forallb is_digit ds = true.

(** Text of a numeric group of the pattern: empty (the group took no part),
    or one or more digits and the unit letter. *)
Definition field_text (u : ascii) (g : gostring) : Prop :=
  g = [] \/ exists ds, all_digits ds /\ g = ds ++ [u].

(** How a numeric group and the stored component relate: the group is
    empty and the component is 0, or the group is a run of digits and the
    unit letter, and the component is the value of the digits. *)
Definition component_of (u : ascii) (g : gostring) (v : Z) : Prop :=
  (g = [] /\ v = 0) \/
  (exists ds, all_digits ds /\ g = ds ++ [u] /\ v = decimal_value ds /\
              0 <= v <= maxInt).

(** The texts [Parse] hands to [strconv.Atoi] for a given match, in program
    order (as far as it gets). *)
Definition numerals (matches : list gostring) : list gostring :=
  (if str_eqb (index matches 1) (str "R") && nonempty (index matches 2)
   then [index matches 2] else [])
  ++ flat_map (fun i => if nonempty (index matches i)
                        then [chop (index matches i)] else [])
              [3; 4; 5; 7; 8; 9]%nat.

(** The value [Parse] stores for the numeric group [m] when its conversion
    succeeds, and [d] when the group is empty. *)
Definition stored (m : gostring) (d : Z) : Z :=
  if nonempty m then fst (Atoi (chop m)) else d.

(** [t += time.Duration(v) * unit] for the group [m], nothing when it is
    empty. *)
Definition accumulated (m : gostring) (unit : Z) (t : Z) : Z :=
  if nonempty m then Duration.add t (Duration.mul (fst (Atoi (chop m))) unit)
  else t.

(** The conversion [Parse] makes for the numeric group [g], if it makes one,
    succeeds. *)
Definition convertible (g : gostring) : Prop :=
  nonempty g = true -> snd (Atoi (chop g)) = None.

(** ** What a match says about the text

    A declarative reading of the pattern language, used to state what a
    successful run of [rmatch] has established: [denote r s c s' c'] holds
    when [r] can match a prefix of [s] leaving [s'], taking the captures from
    [c] to [c']. *)

Definition transition : Type := gostring -> caps -> gostring -> caps -> Prop.

Fixpoint iterate (P : transition) (n : nat) : transition :=
  fun s c s' c' =>
    match n with
    | O => P s c s' c'
    | S n' => exists s1 c1, P s c s1 c1 /\ iterate P n' s1 c1 s' c'
    end.

Fixpoint denote (r : regex) : transition :=
  fun s c s' c' =>
    match r with
    | Chr a => s = a :: s' /\ c' = c
    | Digit => exists d, is_digit d = true /\ s = d :: s' /\ c' = c
    | Cat r1 r2 => exists s1 c1, denote r1 s c s1 c1 /\ denote r2 s1 c1 s' c'
    | Opt r1 => denote r1 s c s' c' \/ (s' = s /\ c' = c)
    | Plus r1 => exists n, iterate (denote r1) n s c s' c'
    | Cap i r1 =>
        exists c1, denote r1 s c s' c1 /\ c' = upd i (consumed s s') c1
    end.

(** The slice a successful match returns for a text that starts with the
    match: the whole match, then the nine groups. *)
Definition match_shape (s : gostring) (ms : list gostring) : Prop :=
  exists g1 g2 sl g3 g4 g5 g6 g7 g8 g9 rest,
    ms = [g1 ++ g2 ++ sl ++ str "P" ++ g3 ++ g4 ++ g5 ++ g6 ++ g7 ++ g8 ++ g9;
          g1; g2; g3; g4; g5; g6; g7; g8; g9] /\
    s = (g1 ++ g2 ++ sl ++ str "P" ++ g3 ++ g4 ++ g5 ++ g6 ++ g7 ++ g8 ++ g9)
        ++ rest /\
    (g1 = [] \/ g1 = str "R") /\
    (g2 = [] \/ all_digits g2) /\
    (sl = [] \/ sl = str "/") /\
    field_text "Y" g3 /\ field_text "M" g4 /\ field_text "D" g5 /\
    (g6 = [] \/ g6 = str "T") /\
    field_text "H" g7 /\ field_text "M" g8 /\ field_text "S" g9.

(** The groups in the order of the pattern, joined into a text. *)
Definition joined (g1 g2 sl g3 g4 g5 g6 g7 g8 g9 : gostring) : gostring :=
  g1 ++ g2 ++ sl ++ str "P" ++ g3 ++ g4 ++ g5 ++ g6 ++ g7 ++ g8 ++ g9.

(** A sentence of the grammar [[R[n]][/]P[nY][nM][nD][T[nH][nM][nS]]]: each
    group is empty or well-formed, and clock fields only come after a
    ["T"]. *)
Definition grammar_text (g1 g2 sl g3 g4 g5 g6 g7 g8 g9 : gostring) : Prop :=
  (g1 = [] \/ g1 = str "R") /\
  (g2 = [] \/ all_digits g2) /\
  (sl = [] \/ sl = str "/") /\
  field_text "Y" g3 /\ field_text "M" g4 /\ field_text "D" g5 /\
  (g6 = [] \/ g6 = str "T") /\
  field_text "H" g7 /\ field_text "M" g8 /\ field_text "S" g9 /\
  (g6 = [] -> g7 = [] /\ g8 = [] /\ g9 = []).

(** [s] does not start with a digit. *)
Definition not_digit_head (s : gostring) : Prop :=
  match s with
  | [] => True
  | c :: _ => is_digit c = false
  end.

(** [s] does not start with the byte [x]. *)
Definition not_head (x : ascii) (s : gostring) : Prop :=
  match s with
  | [] => True
  | c :: _ => c <> x
  end.

(** [s] does not start with a numeric field of unit [u]. *)
Definition no_field (u : ascii) (s : gostring) : Prop :=
  forall ds t, all_digits ds -> s <> ds ++ u :: t.

(** A continuation that accepts whatever is left. *)
Definition total {A : Type} (k : @cont A) : Prop := forall s c, k s c <> None.

(** ** What holds of a running stream *)

(** For a stream started on a period with [N > 0] repetitions, phase by
    phase: the countdown and the number of values handed to the consumer
    never add up to more than [N]. *)
Definition stream_inv `{Clock} (N : Z) (st : stream) : Prop :=
  match at_phase st with
  | Spawned =>
      amount st = N /\ emitted st = [] /\ sender st = chan_open /\
      done (period st) = chan_open
  | Looping =>
      0 < amount st /\ Z.of_nat (length (emitted st)) + amount st <= N /\
      sender st = chan_open /\ done (period st) = chan_open /\
      running (period st) = true
  | Exited =>
      Z.of_nat (length (emitted st)) <= N /\ sender st = chan_closed /\
      running (period st) = false
  end.

(** ** The helpers of the package's tests *)

(** [calcTime(year, month, day, hour, minute, second)] of the test file; the
    package-level [now] it reads is a parameter here. *)
Definition calcTime `{Clock} (now : Time)
    (year month day hour minute second : Z) : Time :=
  let h := Duration.mul hour Duration.Hour in
  let m := Duration.mul minute Duration.Minute in
  let s := Duration.mul second Duration.Second in
  Add (AddDate now year month day) (Duration.add (Duration.add h m) s).

Section ErrorText.
(** [strconv.Quote], which the [%q] verb of [fmt.Errorf] and the text of a
    [strconv.NumError] both use. *)
Variable Quote : gostring -> gostring.

Definition numerr_text (k : numerr) : gostring :=
  match k with
  | ErrSyntax => str "invalid syntax"
  | ErrRange => str "value out of range"
  end.

(** [err.Error()] *)
Definition Error (e : goerror) : gostring :=
  match e with
  | errorString msg => msg
  | NumError Func Num Err =>
      str "strconv." ++ Func ++ str ": " ++ str "parsing " ++ Quote Num
        ++ str ": " ++ numerr_text Err
  end.

(** [checkError(should, is)] of the test file ([is_] stands for its
    parameter [is]): [nil] when the two errors agree, an error that tells
    them apart otherwise. *)
Definition checkError (should is_ : option goerror) : option goerror :=
  match should, is_ with
  | None, Some i =>
      Some (errorString (str "error is " ++ Quote (Error i)
                           ++ str " but should be nil"))
  | Some s, None =>
      Some (errorString (str "error is nil but should be " ++ Quote (Error s)))
  | None, None => None
  | Some s, Some i =>
      if negb (str_eqb (Error s) (Error i)) then
        Some (errorString (str "error is " ++ Quote (Error i)
                             ++ str " but should be " ++ Quote (Error s)))
      else None
  end.
End ErrorText.

(** ** More vocabulary for the properties *)

(** The bytes a match of the pattern can start with. *)
Definition starter (c : ascii) : bool :=
  is_digit c || Ascii.eqb c "R" || Ascii.eqb c "/" || Ascii.eqb c "P".

(** The repetition count [Parse] reads back from what [String] writes. *)
Definition reread_repetitions (n : Z) : Z :=
  if n =? 0 then -1 else if 0 <? n then n else 0.

(** The values of the ticks that found the consumer receiving. *)
Definition received `{Clock} (evs : list event) : list Time :=
  flat_map (fun e => match e with
                     | Tick t true => [t]
                     | _ => []
                     end) evs.


(** * Properties *)

(** ** Digits, [Atoi] and [Itoa] *)

Lemma is_digit_range (c : ascii) :
  is_digit c = true <-> 48 <= code c <= 57.
Proof.
  unfold is_digit. rewrite andb_true_iff, !Z.leb_le. tauto.
Qed.

Lemma code_digit_char (d : Z) : 0 <= d <= 9 -> code (digit_char d) = 48 + d.
Proof.
  intros Hd. unfold code, digit_char.
  rewrite N_ascii_embedding by lia. lia.
Qed.

Lemma is_digit_digit_char (d : Z) : 0 <= d <= 9 -> is_digit (digit_char d) = true.
Proof.
  intros Hd. apply is_digit_range. rewrite code_digit_char; lia.
Qed.

Lemma digit_val_digit_char (d : Z) : 0 <= d <= 9 -> digit_val (digit_char d) = d.
Proof.
  intros Hd. unfold digit_val. rewrite code_digit_char; lia.
Qed.

Lemma digit_val_range (c : ascii) : is_digit c = true -> 0 <= digit_val c <= 9.
Proof.
  intros Hc. apply is_digit_range in Hc. unfold digit_val. lia.
Qed.

Lemma eqb_not_digit (c a : ascii) :
  is_digit a = false -> is_digit c = true -> Ascii.eqb c a = false.
Proof.
  intros Ha Hc. destruct (Ascii.eqb c a) eqn:E; [|reflexivity].
  apply Ascii.eqb_eq in E. congruence.
Qed.

Lemma decimal_value_snoc (ds : gostring) (c : ascii) :
  decimal_value (ds ++ [c]) = decimal_value ds * 10 + digit_val c.
Proof.
  unfold decimal_value. rewrite fold_left_app. reflexivity.
Qed.

Lemma decimal_value_nonneg (ds : gostring) :
  forallb is_digit ds = true -> 0 <= decimal_value ds.
Proof.
  induction ds as [|c ds IH] using rev_ind; intros Hd.
  - unfold decimal_value. simpl. lia.
  - rewrite forallb_app in Hd. apply andb_true_iff in Hd as [Hds Hc].
    simpl in Hc. rewrite andb_true_r in Hc.
    rewrite decimal_value_snoc.
    pose proof (digit_val_range c Hc). specialize (IH Hds). lia.
Qed.

(** [utoa] writes the decimal digits of [n]. *)
Lemma utoa_digits (f : nat) :
  forall n acc, 0 <= n < 10 ^ Z.of_nat (S f) ->
    exists ds, utoa (S f) n acc = ds ++ acc /\ all_digits ds /\ decimal_value ds = n.
Proof.
  assert (Hone : forall n acc, 0 <= n < 10 ->
            exists ds, digit_char n :: acc = ds ++ acc /\ all_digits ds /\
                       decimal_value ds = n).
  { intros n acc Hn. exists [digit_char n]. repeat split.
    - discriminate.
    - simpl. rewrite is_digit_digit_char by lia. reflexivity.
    - unfold decimal_value. simpl. rewrite digit_val_digit_char; lia. }
  induction f as [|f IH]; intros n acc Hn.
  - simpl utoa. destruct (n <? 10) eqn:E.
    + apply Hone. lia.
    + apply Z.ltb_ge in E. simpl in Hn. lia.
  - change (utoa (S (S f)) n acc)
      with (if n <? 10 then digit_char n :: acc
            else utoa (S f) (n / 10) (digit_char (n mod 10) :: acc)).
    destruct (n <? 10) eqn:E.
    + apply Z.ltb_lt in E. apply Hone. lia.
    + apply Z.ltb_ge in E.
      assert (Hq : 0 <= n / 10 < 10 ^ Z.of_nat (S f)).
      { split; [apply Z.div_pos; lia|].
        apply Z.div_lt_upper_bound; [lia|].
        rewrite (Nat2Z.inj_succ (S f)), Z.pow_succ_r in Hn by lia. lia. }
      destruct (IH (n / 10) (digit_char (n mod 10) :: acc) Hq)
        as (ds & Heq & [Hne Hds] & Hv).
      pose proof (Z.mod_pos_bound n 10 ltac:(lia)) as Hm.
      exists (ds ++ [digit_char (n mod 10)]). repeat split.
      * rewrite Heq, <- app_assoc. reflexivity.
      * destruct ds; discriminate.
      * rewrite forallb_app, Hds. simpl.
        rewrite is_digit_digit_char by lia. reflexivity.
      * rewrite decimal_value_snoc, Hv, digit_val_digit_char by lia.
        pose proof (Z.div_mod n 10 ltac:(lia)). lia.
Qed.

(** [Itoa] of a non-negative [int] is its run of decimal digits. *)
Lemma Itoa_digits (n : Z) :
  0 <= n <= maxInt -> all_digits (Itoa n) /\ decimal_value (Itoa n) = n.
Proof.
  intros Hn. unfold Itoa.
  destruct (n <? 0) eqn:E; [apply Z.ltb_lt in E; lia|].
  destruct (utoa_digits 19 n []) as (ds & Heq & Hds & Hv).
  { unfold maxInt in Hn. change (Z.of_nat 20) with 20. lia. }
  rewrite app_nil_r in Heq. rewrite Heq. auto.
Qed.

(** [Atoi] on a run of digits. *)
Lemma Atoi_digits (ds : gostring) :
  all_digits ds ->
  Atoi ds = if maxInt <? decimal_value ds
            then (maxInt, Some (NumError (str "Atoi") ds ErrRange))
            else (decimal_value ds, None).
Proof.
  intros [Hne Hds]. unfold Atoi.
  destruct ds as [|c t]; [congruence|].
  assert (Hc : is_digit c = true).
  { simpl in Hds. apply andb_true_iff in Hds. tauto. }
  rewrite (eqb_not_digit c "+"), (eqb_not_digit c "-") by (trivial || reflexivity).
  rewrite Hds. simpl nonempty. simpl andb. cbv zeta.
  pose proof (decimal_value_nonneg (c :: t) Hds) as Hpos.
  destruct (decimal_value (c :: t) <? minInt) eqn:E.
  - apply Z.ltb_lt in E. unfold minInt in E. lia.
  - reflexivity.
Qed.

Lemma Atoi_digits_ok (ds : gostring) (v : Z) :
  all_digits ds -> Atoi ds = (v, None) ->
  v = decimal_value ds /\ 0 <= v <= maxInt.
Proof.
  intros Hds HA. rewrite (Atoi_digits ds Hds) in HA.
  destruct (maxInt <? decimal_value ds) eqn:E; [discriminate|].
  apply Z.ltb_ge in E. inversion HA; subst.
  destruct Hds as [_ Hds]. pose proof (decimal_value_nonneg ds Hds). lia.
Qed.

Lemma Atoi_Itoa (n : Z) : 0 <= n <= maxInt -> Atoi (Itoa n) = (n, None).
Proof.
  intros Hn. destruct (Itoa_digits n Hn) as [Hds Hv].
  rewrite (Atoi_digits _ Hds), Hv.
  destruct (maxInt <? n) eqn:E; [apply Z.ltb_lt in E; lia|reflexivity].
Qed.

(** ** String *)

(** C3.  [String] is a total function of the period (it returns a text for
    every [Period], the same one each time), and that text is the canonical
    text of the
    specification: the prefix ["R/"] for zero repetitions, ["R<n>/"] for
    positive ones and none for negative ones, then ["P"], the strictly
    positive calendar components in the order Y, M, D, a single ["T"] and the
    strictly positive clock components in the order H, M, S when there is
    one, and ["T0S"] when no component is positive. *)
Theorem String_is_canonical (p : Period) : String p = canonical p.
Proof.
  unfold String, canonical, canonical_prefix, part, any_clock, any_calendar.
  rewrite !Z.gtb_ltb.
  destruct (Repetitions p =? 0), (0 <? Repetitions p), (0 <? Year p),
    (0 <? Month p), (0 <? Day p), (0 <? Hour p), (0 <? Minute p),
    (0 <? Second p); simpl;
    repeat first [rewrite <- app_assoc | rewrite app_nil_r | progress simpl];
    reflexivity.
Qed.

(** ** The matcher *)

Lemma consumed_app (x s' : gostring) : consumed (x ++ s') s' = x.
Proof.
  unfold consumed. rewrite length_app.
  replace (length x + length s' - length s')%nat with (length x + 0)%nat by lia.
  rewrite firstn_app_2. simpl. apply app_nil_r.
Qed.

Section Soundness.
Context {A : Type}.

Lemma plus_loop_sound (r : regex) (k : @cont A)
      (IH : forall s c (k : @cont A) a, rmatch r s c k = Some a ->
              exists s' c', denote r s c s' c' /\ k s' c' = Some a) :
  forall n s c a, plus_loop (rmatch r) k n s c = Some a ->
    exists s' c', denote (Plus r) s c s' c' /\ k s' c' = Some a.
Proof.
  induction n as [|n IHn]; intros s c a Hm; [discriminate|].
  simpl in Hm. apply IH in Hm as (s1 & c1 & Hr & Hk).
  destruct (plus_loop (rmatch r) k n s1 c1) as [a'|] eqn:E; simpl in Hk.
  - inversion Hk; subst a'.
    apply IHn in E as (s' & c' & [m Hit] & Hk').
    exists s', c'. split; [|exact Hk'].
    exists (S m), s1, c1. auto.
  - exists s1, c1. split; [|exact Hk]. exists O. exact Hr.
Qed.

(** Whatever [rmatch] answers was answered by its continuation, on a rest
    and on captures that the pattern allows. *)
Lemma rmatch_sound (r : regex) :
  forall s c (k : @cont A) a, rmatch r s c k = Some a ->
    exists s' c', denote r s c s' c' /\ k s' c' = Some a.
Proof.
  induction r as [x| |r1 IH1 r2 IH2|r1 IH1|r1 IH1|i r1 IH1]; intros s c k a Hm.
  - simpl in Hm. destruct s as [|y s']; [discriminate|].
    destruct (Ascii.eqb y x) eqn:E; [|discriminate].
    apply Ascii.eqb_eq in E. subst y. exists s', c. simpl. auto.
  - simpl in Hm. destruct s as [|y s']; [discriminate|].
    destruct (is_digit y) eqn:E; [|discriminate].
    exists s', c. simpl. split; [exists y|]; auto.
  - simpl in Hm. apply IH1 in Hm as (s1 & c1 & H1 & Hm).
    apply IH2 in Hm as (s2 & c2 & H2 & Hk).
    exists s2, c2. split; [|exact Hk]. exists s1, c1. auto.
  - simpl in Hm. destruct (rmatch r1 s c k) as [a'|] eqn:E; simpl in Hm.
    + inversion Hm; subst a'. apply IH1 in E as (s' & c' & H1 & Hk).
      exists s', c'. simpl. auto.
    + exists s, c. simpl. auto.
  - exact (plus_loop_sound r1 k IH1 (S (length s)) s c a Hm).
  - simpl in Hm. apply IH1 in Hm as (s' & c1 & H1 & Hk).
    exists s', (upd i (consumed s s') c1). split; [|exact Hk].
    exists c1. auto.
Qed.
End Soundness.

(** [\d+] consumes a non-empty run of digits and leaves the captures. *)
Lemma denote_digits (s : gostring) (c : caps) (s' : gostring) (c' : caps) :
  denote (Plus Digit) s c s' c' ->
  c' = c /\ exists ds, all_digits ds /\ s = ds ++ s'.
Proof.
  intros [n Hn]. revert s c Hn.
  induction n as [|n IH]; intros s c Hn; simpl in Hn.
  - destruct Hn as (d & Hd & -> & ->). split; [reflexivity|].
    exists [d]. repeat split; [discriminate|simpl; rewrite Hd; reflexivity].
  - destruct Hn as (s1 & c1 & (d & Hd & -> & ->) & Hit).
    apply IH in Hit as [-> (ds & [_ Hds] & ->)]. split; [reflexivity|].
    exists (d :: ds). repeat split; [discriminate|simpl; rewrite Hd, Hds; reflexivity].
Qed.

Lemma upd_same (i : nat) (c : caps) : nth i c [] = [] -> upd i [] c = c.
Proof.
  revert c. induction i as [|i IH]; intros [|x c] Hn; simpl in *; try reflexivity.
  - congruence.
  - rewrite IH by assumption. reflexivity.
Qed.

(** [(\d+U)?]: the group is empty, or digits and the unit letter. *)
Lemma denote_field (i : nat) (u : ascii) (s : gostring) (c : caps)
      (s' : gostring) (c' : caps) :
  denote (field i u) s c s' c' -> nth i c [] = [] ->
  exists g, field_text u g /\ s = g ++ s' /\ c' = upd i g c.
Proof.
  intros [Hhit|[-> ->]] Hi.
  - destruct Hhit as (c1 & (s1 & c2 & Hd & -> & ->) & ->).
    apply denote_digits in Hd as [-> (ds & Hds & ->)].
    exists (ds ++ [u]). split; [right; exists ds; auto|].
    rewrite <- app_assoc. simpl. split; [reflexivity|].
    replace (ds ++ u :: s') with ((ds ++ [u]) ++ s')
      by (rewrite <- app_assoc; reflexivity).
    rewrite consumed_app. reflexivity.
  - exists []. split; [left; reflexivity|]. rewrite upd_same by assumption. auto.
Qed.

(** [(x)?] for a literal [x]. *)
Lemma denote_opt_chr (i : nat) (x : ascii) (s : gostring) (c : caps)
      (s' : gostring) (c' : caps) :
  denote (Opt (Cap i (Chr x))) s c s' c' -> nth i c [] = [] ->
  exists g, (g = [] \/ g = [x]) /\ s = g ++ s' /\ c' = upd i g c.
Proof.
  intros [Hhit|[-> ->]] Hi.
  - destruct Hhit as (c1 & (-> & ->) & ->).
    exists [x]. split; [auto|]. split; [reflexivity|].
    change (x :: s') with ([x] ++ s'). rewrite consumed_app. reflexivity.
  - exists []. rewrite upd_same by assumption. auto.
Qed.

(** [(\d+)?] *)
Lemma denote_opt_digits (i : nat) (s : gostring) (c : caps)
      (s' : gostring) (c' : caps) :
  denote (Opt (Cap i (Plus Digit))) s c s' c' -> nth i c [] = [] ->
  exists g, (g = [] \/ all_digits g) /\ s = g ++ s' /\ c' = upd i g c.
Proof.
  intros [Hhit|[-> ->]] Hi.
  - destruct Hhit as (c1 & Hd & ->).
    apply denote_digits in Hd as [-> (ds & Hds & ->)].
    exists ds. rewrite consumed_app. auto.
  - exists []. rewrite upd_same by assumption. auto.
Qed.

(** [x?] for a literal [x] outside any group. *)
Lemma denote_opt_lit (x : ascii) (s : gostring) (c : caps)
      (s' : gostring) (c' : caps) :
  denote (Opt (Chr x)) s c s' c' ->
  exists g, (g = [] \/ g = [x]) /\ s = g ++ s' /\ c' = c.
Proof.
  intros [[-> ->]|[-> ->]]; [exists [x]|exists []]; auto.
Qed.

(** A match at the head of [s] has the shape of the pattern. *)
Lemma match_here_shape (s : gostring) (ms : list gostring) :
  match_here s = Some ms -> match_shape s ms.
Proof.
  unfold match_here. intros Hm.
  apply rmatch_sound in Hm as (s' & c' & Hd & Hk).
  unfold compiler in Hd.
  destruct Hd as (s1 & c1 & H1 & Hd).
  apply denote_opt_chr in H1 as (g1 & Hg1 & E1 & ->); [|reflexivity].
  destruct Hd as (s2 & c2 & H2 & Hd).
  apply denote_opt_digits in H2 as (g2 & Hg2 & -> & ->); [|reflexivity].
  destruct Hd as (s3 & c3 & H3 & Hd).
  apply denote_opt_lit in H3 as (sl & Hsl & -> & ->).
  destruct Hd as (s4 & c4 & [-> ->] & Hd).
  destruct Hd as (s5 & c5 & H5 & Hd).
  apply denote_field in H5 as (g3 & Hg3 & -> & ->); [|reflexivity].
  destruct Hd as (s6 & c6 & H6 & Hd).
  apply denote_field in H6 as (g4 & Hg4 & -> & ->); [|reflexivity].
  destruct Hd as (s7 & c7 & H7 & Hd).
  apply denote_field in H7 as (g5 & Hg5 & -> & ->); [|reflexivity].
  destruct Hd as (s8 & c8 & H8 & Hd).
  apply denote_opt_chr in H8 as (g6 & Hg6 & -> & ->); [|reflexivity].
  destruct Hd as (s9 & c9 & H9 & Hd).
  apply denote_field in H9 as (g7 & Hg7 & -> & ->); [|reflexivity].
  destruct Hd as (s10 & c10 & H10 & Hd).
  apply denote_field in H10 as (g8 & Hg8 & -> & ->); [|reflexivity].
  apply denote_field in Hd as (g9 & Hg9 & -> & ->); [|reflexivity].
  assert (Es : s = (g1 ++ g2 ++ sl ++ str "P" ++ g3 ++ g4 ++ g5 ++ g6 ++ g7
                       ++ g8 ++ g9) ++ s').
  { rewrite E1. repeat first [rewrite <- app_assoc | progress simpl]. reflexivity. }
  exists g1, g2, sl, g3, g4, g5, g6, g7, g8, g9, s'.
  split; [|split; [exact Es|tauto]].
  inversion Hk as [Hms]. rewrite Es at 1. rewrite consumed_app. reflexivity.
Qed.

Lemma match_shape_length (s : gostring) (ms : list gostring) :
  match_shape s ms -> length ms = 10%nat.
Proof.
  intros (g1 & g2 & sl & g3 & g4 & g5 & g6 & g7 & g8 & g9 & rest & -> & _).
  reflexivity.
Qed.

(** [FindStringSubmatch] answers [nil], or the match at some start
    position. *)
Lemma Find_cases (s : gostring) :
  (FindStringSubmatch s = [] /\
   forall pre s0, s = pre ++ s0 -> match_here s0 = None) \/
  (exists pre s0, s = pre ++ s0 /\
                  match_here s0 = Some (FindStringSubmatch s)).
Proof.
  induction s as [|x s IH].
  - left. split; [reflexivity|]. intros pre s0 Hs.
    symmetry in Hs. apply app_eq_nil in Hs as [_ ->]. reflexivity.
  - change (FindStringSubmatch (x :: s))
      with (match match_here (x :: s) with
            | Some c => c
            | None => FindStringSubmatch s
            end).
    destruct (match_here (x :: s)) as [ms|] eqn:E.
    + right. exists [], (x :: s). auto.
    + destruct IH as [[Hnil Hall]|(pre & s0 & -> & Hm)].
      * left. split; [exact Hnil|]. intros pre s0 Hs.
        destruct pre as [|y pre]; simpl in Hs.
        -- subst s0. exact E.
        -- inversion Hs; subst. eapply Hall. reflexivity.
      * right. exists (x :: pre), s0. auto.
Qed.

Lemma Find_shape (s : gostring) :
  FindStringSubmatch s <> [] ->
  exists pre s0, s = pre ++ s0 /\ match_shape s0 (FindStringSubmatch s).
Proof.
  intros Hne. destruct (Find_cases s) as [[Hnil _]|(pre & s0 & Hs & Hm)].
  - contradiction.
  - exists pre, s0. split; [exact Hs|]. apply match_here_shape. exact Hm.
Qed.

Lemma Find_length (s : gostring) :
  FindStringSubmatch s = [] \/ length (FindStringSubmatch s) = 10%nat.
Proof.
  destruct (FindStringSubmatch s) as [|m ms] eqn:E; [left; reflexivity|].
  right. destruct (Find_shape s) as (pre & s0 & _ & Hsh).
  - rewrite E. discriminate.
  - rewrite E in Hsh. apply (match_shape_length _ _ Hsh).
Qed.

(** An optional item never makes a match fail when what follows cannot
    fail. *)
Lemma total_Opt {A : Type} (r : regex) (k : @cont A) :
  total k -> total (fun s c => rmatch (Opt r) s c k).
Proof.
  intros Hk s c. simpl. destruct (rmatch r s c k); simpl; [discriminate|apply Hk].
Qed.

Lemma total_Cat_Opt {A : Type} (r r2 : regex) (k : @cont A) :
  total (fun s c => rmatch r2 s c k) ->
  total (fun s c => rmatch (Cat (Opt r) r2) s c k).
Proof.
  intros Hk s c. apply (total_Opt r _ Hk).
Qed.

(** Everything after the [P] is optional. *)
Lemma after_P_total {A : Type} (k : @cont A) :
  total k ->
  total (fun s c =>
           rmatch (Cat (field 3 "Y") (Cat (field 4 "M") (Cat (field 5 "D")
                  (Cat (Opt (Cap 6 (Chr "T"))) (Cat (field 7 "H")
                  (Cat (field 8 "M") (field 9 "S"))))))) s c k).
Proof.
  intros Hk. unfold field.
  repeat apply total_Cat_Opt. apply total_Opt. exact Hk.
Qed.

Lemma is_digit_P : is_digit "P" = false.
Proof. reflexivity. Qed.

(** A text that starts with [P] has a match at its head. *)
Lemma match_here_P (post : gostring) : match_here ("P"%char :: post) <> None.
Proof.
  unfold match_here, compiler.
  cbn [rmatch plus_loop length Ascii.eqb Bool.eqb orelse].
  rewrite is_digit_P. cbn [orelse].
  apply after_P_total. intros s c. discriminate.
Qed.

Lemma Find_nil_iff (s : gostring) :
  FindStringSubmatch s = [] <-> ~ In "P"%char s.
Proof.
  split.
  - intros Hnil Hin. apply in_split in Hin as (pre & post & ->).
    destruct (Find_cases (pre ++ "P"%char :: post))
      as [[_ Hall]|(pre' & s0 & _ & Hm)].
    + apply (match_here_P post). eapply Hall. reflexivity.
    + rewrite Hnil in Hm. apply match_here_shape, match_shape_length in Hm.
      discriminate.
  - intros Hno. destruct (Find_cases s) as [[Hnil _]|(pre & s0 & -> & Hm)].
    + exact Hnil.
    + exfalso. apply Hno.
      apply match_here_shape in Hm
        as (g1 & g2 & sl & g3 & g4 & g5 & g6 & g7 & g8 & g9 & rest & _ & -> & _).
      apply in_or_app. right.
      apply in_or_app. left.
      apply in_or_app. right.
      apply in_or_app. right.
      apply in_or_app. right.
      simpl. auto.
Qed.

(** ** Parse, block by block *)

Lemma chop_snoc (ds : gostring) (u : ascii) : chop (ds ++ [u]) = ds.
Proof.
  unfold chop. rewrite length_app. simpl.
  replace (length ds + 1 - 1)%nat with (length ds + 0)%nat by lia.
  rewrite firstn_app_2. simpl. apply app_nil_r.
Qed.

Lemma str_eqb_eq (a b : gostring) : str_eqb a b = true <-> a = b.
Proof.
  revert b. induction a as [|x a IH]; intros [|y b]; simpl;
    try (split; [discriminate|discriminate]); [tauto|].
  rewrite andb_true_iff, Ascii.eqb_eq, IH. split.
  - intros [-> ->]. reflexivity.
  - intros E. inversion E. auto.
Qed.

Lemma nonempty_false (m : gostring) : nonempty m = false <-> m = [].
Proof. destruct m; simpl; split; congruence. Qed.

Lemma convert_inl (num : gostring) (k : Z -> Period) (r' : Period) :
  convert num k = inl r' -> r' = k (fst (Atoi num)) /\ snd (Atoi num) = None.
Proof.
  unfold convert. destruct (Atoi num) as [v [e|]]; [discriminate|].
  intros E. inversion E. auto.
Qed.

Lemma convert_inr (num : gostring) (k : Z -> Period) (e : goerror) :
  convert num k = inr e -> snd (Atoi num) = Some e.
Proof.
  unfold convert. destruct (Atoi num) as [v [e'|]]; [|discriminate].
  intros E. inversion E. reflexivity.
Qed.

Lemma parse_repetitions_inl (ms : list gostring) (r r' : Period) :
  parse_repetitions ms r = inl r' ->
  r' = (if str_eqb (index ms 1) (str "R")
        then set_Repetitions r (if nonempty (index ms 2)
                                then fst (Atoi (index ms 2)) else -1)
        else r) /\
  (str_eqb (index ms 1) (str "R") && nonempty (index ms 2) = true ->
   snd (Atoi (index ms 2)) = None).
Proof.
  unfold parse_repetitions.
  destruct (str_eqb (index ms 1) (str "R")); [|intros E; inversion E; split; [reflexivity|discriminate]].
  destruct (nonempty (index ms 2)).
  - intros E. apply convert_inl in E as [-> HA]. auto.
  - intros E. inversion E. split; [reflexivity|discriminate].
Qed.

Lemma parse_calendar_inl (ms : list gostring) (i : nat)
      (set : Period -> Z -> Period) (r r' : Period) :
  parse_calendar ms i set r = inl r' ->
  r' = (if nonempty (index ms i)
        then set r (fst (Atoi (chop (index ms i)))) else r) /\
  (nonempty (index ms i) = true -> snd (Atoi (chop (index ms i))) = None).
Proof.
  unfold parse_calendar. destruct (nonempty (index ms i)).
  - intros E. apply convert_inl in E as [-> HA]. auto.
  - intros E. inversion E. split; [reflexivity|discriminate].
Qed.

Lemma parse_clock_inl (ms : list gostring) (i : nat)
      (set : Period -> Z -> Period) (unit : Z) (r r' : Period) :
  parse_clock ms i set unit r = inl r' ->
  r' = (if nonempty (index ms i)
        then let v := fst (Atoi (chop (index ms i))) in
             set_time (set r v)
                      (Duration.add (time (set r v)) (Duration.mul v unit))
        else r) /\
  (nonempty (index ms i) = true -> snd (Atoi (chop (index ms i))) = None).
Proof.
  unfold parse_clock. destruct (nonempty (index ms i)).
  - intros E. apply convert_inl in E as [-> HA]. auto.
  - intros E. inversion E. split; [reflexivity|discriminate].
Qed.

Ltac by_cases_on_ifs :=
  repeat match goal with
         | |- context [if ?b then _ else _] => destruct b
         end;
  reflexivity.

(** What the blocks of [Parse] leave in [result] when none of them
    returns early. *)
Lemma parse_fields_inl (ms : list gostring) (r0 p : Period) :
  parse_fields ms r0 = inl p ->
  Repetitions p =
    (if str_eqb (index ms 1) (str "R")
     then if nonempty (index ms 2) then fst (Atoi (index ms 2)) else -1
     else Repetitions r0) /\
  Year p = stored (index ms 3) (Year r0) /\
  Month p = stored (index ms 4) (Month r0) /\
  Day p = stored (index ms 5) (Day r0) /\
  Hour p = stored (index ms 7) (Hour r0) /\
  Minute p = stored (index ms 8) (Minute r0) /\
  Second p = stored (index ms 9) (Second r0) /\
  time p = accumulated (index ms 9) Duration.Second
             (accumulated (index ms 8) Duration.Minute
                (accumulated (index ms 7) Duration.Hour (time r0))) /\
  done p = done r0 /\ running p = running r0 /\
  (forall x, In x (numerals ms) -> snd (Atoi x) = None).
Proof.
  unfold parse_fields, and_then. intros H.
  destruct (parse_repetitions ms r0) as [r1|] eqn:E1; [|discriminate].
  destruct (parse_calendar ms 3 set_Year r1) as [r2|] eqn:E2; [|discriminate].
  destruct (parse_calendar ms 4 set_Month r2) as [r3|] eqn:E3; [|discriminate].
  destruct (parse_calendar ms 5 set_Day r3) as [r4|] eqn:E4; [|discriminate].
  destruct (parse_clock ms 7 set_Hour Duration.Hour r4) as [r5|] eqn:E5;
    [|discriminate].
  destruct (parse_clock ms 8 set_Minute Duration.Minute r5) as [r6|] eqn:E6;
    [|discriminate].
  apply parse_repetitions_inl in E1 as [-> A1].
  apply parse_calendar_inl in E2 as [-> A2].
  apply parse_calendar_inl in E3 as [-> A3].
  apply parse_calendar_inl in E4 as [-> A4].
  apply parse_clock_inl in E5 as [-> A5].
  apply parse_clock_inl in E6 as [-> A6].
  apply parse_clock_inl in H as [-> A7].
  unfold stored, accumulated.
  revert A1 A2 A3 A4 A5 A6 A7. unfold numerals. cbn [flat_map].
  generalize (str_eqb (index ms 1) (str "R")) (nonempty (index ms 2))
    (nonempty (index ms 3)) (nonempty (index ms 4)) (nonempty (index ms 5))
    (nonempty (index ms 7)) (nonempty (index ms 8)) (nonempty (index ms 9)).
  generalize (fst (Atoi (index ms 2))) (fst (Atoi (chop (index ms 3))))
    (fst (Atoi (chop (index ms 4)))) (fst (Atoi (chop (index ms 5))))
    (fst (Atoi (chop (index ms 7)))) (fst (Atoi (chop (index ms 8))))
    (fst (Atoi (chop (index ms 9)))).
  intros v2 v3 v4 v5 v7 v8 v9 b1 b2 b3 b4 b5 b7 b8 b9 A1 A2 A3 A4 A5 A6 A7.
  repeat split; try by_cases_on_ifs.
  intros x Hx.
  repeat (apply in_app_or in Hx; destruct Hx as [Hx|Hx]);
    match type of Hx with
    | In _ (if ?b then _ else _) =>
        destruct b eqn:Eb; [destruct Hx as [<-|[]]; auto|destruct Hx]
    | _ => destruct Hx
    end.
Qed.

Lemma parse_repetitions_inr (ms : list gostring) (r : Period) (e : goerror) :
  parse_repetitions ms r = inr e ->
  str_eqb (index ms 1) (str "R") && nonempty (index ms 2) = true /\
  snd (Atoi (index ms 2)) = Some e.
Proof.
  unfold parse_repetitions.
  destruct (str_eqb (index ms 1) (str "R")); [|discriminate].
  destruct (nonempty (index ms 2)); [|discriminate].
  intros E. apply convert_inr in E. auto.
Qed.

Lemma parse_calendar_inr (ms : list gostring) (i : nat)
      (set : Period -> Z -> Period) (r : Period) (e : goerror) :
  parse_calendar ms i set r = inr e ->
  nonempty (index ms i) = true /\ snd (Atoi (chop (index ms i))) = Some e.
Proof.
  unfold parse_calendar. destruct (nonempty (index ms i)); [|discriminate].
  intros E. apply convert_inr in E. auto.
Qed.

Lemma parse_clock_inr (ms : list gostring) (i : nat)
      (set : Period -> Z -> Period) (unit : Z) (r : Period) (e : goerror) :
  parse_clock ms i set unit r = inr e ->
  nonempty (index ms i) = true /\ snd (Atoi (chop (index ms i))) = Some e.
Proof.
  unfold parse_clock. destruct (nonempty (index ms i)); [|discriminate].
  intros E. apply convert_inr in E. auto.
Qed.

Lemma numerals_field (ms : list gostring) (i : nat) :
  In i [3; 4; 5; 7; 8; 9]%nat -> nonempty (index ms i) = true ->
  In (chop (index ms i)) (numerals ms).
Proof.
  intros Hi Hne. unfold numerals. apply in_or_app. right.
  apply in_flat_map. exists i. split; [exact Hi|].
  rewrite Hne. simpl. auto.
Qed.

(** An early return of [Parse] carries the error of a conversion it made. *)
Lemma parse_fields_inr (ms : list gostring) (r0 : Period) (e : goerror) :
  parse_fields ms r0 = inr e ->
  exists x, In x (numerals ms) /\ snd (Atoi x) = Some e.
Proof.
  unfold parse_fields, and_then. intros H.
  destruct (parse_repetitions ms r0) as [r1|e1] eqn:E1.
  2:{ inversion H; subst e1. apply parse_repetitions_inr in E1 as [Hb HA].
      exists (index ms 2). split; [|exact HA].
      unfold numerals. rewrite Hb. simpl. auto. }
  destruct (parse_calendar ms 3 set_Year r1) as [r2|e2] eqn:E2.
  2:{ inversion H; subst e2. apply parse_calendar_inr in E2 as [Hb HA].
      eexists. split; [apply (numerals_field ms 3); [simpl; tauto|exact Hb]|exact HA]. }
  destruct (parse_calendar ms 4 set_Month r2) as [r3|e3] eqn:E3.
  2:{ inversion H; subst e3. apply parse_calendar_inr in E3 as [Hb HA].
      eexists. split; [apply (numerals_field ms 4); [simpl; tauto|exact Hb]|exact HA]. }
  destruct (parse_calendar ms 5 set_Day r3) as [r4|e4] eqn:E4.
  2:{ inversion H; subst e4. apply parse_calendar_inr in E4 as [Hb HA].
      eexists. split; [apply (numerals_field ms 5); [simpl; tauto|exact Hb]|exact HA]. }
  destruct (parse_clock ms 7 set_Hour Duration.Hour r4) as [r5|e5] eqn:E5.
  2:{ inversion H; subst e5. apply parse_clock_inr in E5 as [Hb HA].
      eexists. split; [apply (numerals_field ms 7); [simpl; tauto|exact Hb]|exact HA]. }
  destruct (parse_clock ms 8 set_Minute Duration.Minute r5) as [r6|e6] eqn:E6.
  2:{ inversion H; subst e6. apply parse_clock_inr in E6 as [Hb HA].
      eexists. split; [apply (numerals_field ms 8); [simpl; tauto|exact Hb]|exact HA]. }
  apply parse_clock_inr in H as [Hb HA].
  eexists. split; [apply (numerals_field ms 9); [simpl; tauto|exact Hb]|exact HA].
Qed.

Lemma Atoi_error (x : gostring) (e : goerror) :
  snd (Atoi x) = Some e -> exists k, e = NumError (str "Atoi") x k.
Proof.
  unfold Atoi.
  destruct (match x with
            | [] => (false, x)
            | c :: t =>
                if Ascii.eqb c "+" then (false, t)
                else if Ascii.eqb c "-" then (true, t) else (false, x)
            end) as [neg ds].
  destruct (nonempty ds && forallb is_digit ds).
  - destruct (_ <? minInt); [simpl; intros E; inversion E; eauto|].
    destruct (maxInt <? _); simpl; intros E; inversion E; eauto.
  - simpl. intros E. inversion E. eauto.
Qed.

(** The three ways out of [Parse]. *)
Lemma Parse_cases (s : gostring) :
  (FindStringSubmatch s = [] /\ Parse s = (None, Some invalid_format)) \/
  (FindStringSubmatch s <> [] /\
   exists p, parse_fields (FindStringSubmatch s) zero_period = inl p /\
             Parse s = (Some p, None)) \/
  (FindStringSubmatch s <> [] /\
   exists e, parse_fields (FindStringSubmatch s) zero_period = inr e /\
             Parse s = (None, Some e)).
Proof.
  unfold Parse. fold zero_period.
  destruct (FindStringSubmatch s) as [|m ms] eqn:E.
  - left. auto.
  - right. simpl length. cbn [Nat.eqb].
    destruct (parse_fields (m :: ms) zero_period) as [p|e].
    + left. split; [discriminate|]. eauto.
    + right. split; [discriminate|]. eauto.
Qed.

Lemma Parse_ok (s : gostring) (p : Period) :
  Parse s = (Some p, None) ->
  FindStringSubmatch s <> [] /\
  parse_fields (FindStringSubmatch s) zero_period = inl p.
Proof.
  intros HP.
  destruct (Parse_cases s) as [[_ H]|[(Hne & q & Hq & H)|(_ & e & _ & H)]];
    rewrite H in HP; inversion HP; subst; auto.
Qed.

(** The groups of a match, by index. *)
Lemma Find_groups (s : gostring) :
  let ms := FindStringSubmatch s in
  ms <> [] ->
  (index ms 1 = [] \/ index ms 1 = str "R") /\
  (index ms 2 = [] \/ all_digits (index ms 2)) /\
  field_text "Y" (index ms 3) /\ field_text "M" (index ms 4) /\
  field_text "D" (index ms 5) /\
  (index ms 6 = [] \/ index ms 6 = str "T") /\
  field_text "H" (index ms 7) /\ field_text "M" (index ms 8) /\
  field_text "S" (index ms 9).
Proof.
  intros ms Hne. destruct (Find_shape s Hne) as (pre & s0 & _ & Hsh).
  fold ms in Hsh.
  destruct Hsh as (g1 & g2 & sl & g3 & g4 & g5 & g6 & g7 & g8 & g9 & rest
                   & -> & _ & H1 & H2 & _ & H3 & H4 & H5 & H6 & H7 & H8 & H9).
  unfold index. simpl. tauto.
Qed.

Lemma component_of_stored (u : ascii) (g : gostring) :
  field_text u g ->
  (nonempty g = true -> snd (Atoi (chop g)) = None) ->
  component_of u g (stored g 0).
Proof.
  intros [->|(ds & Hds & ->)] HA.
  - left. auto.
  - right. exists ds. unfold stored.
    assert (Hne : nonempty (ds ++ [u]) = true) by (destruct ds; reflexivity).
    rewrite Hne. specialize (HA Hne). rewrite chop_snoc in *.
    destruct (Atoi ds) as [v e] eqn:EA. simpl in HA. subst e.
    apply (Atoi_digits_ok ds v Hds) in EA as [Hv Hr]. simpl. tauto.
Qed.

(** Every text [Parse] converts for a match is a run of digits, so the only
    way a conversion fails is by range. *)
Lemma numerals_digits (s : gostring) (x : gostring) :
  FindStringSubmatch s <> [] ->
  In x (numerals (FindStringSubmatch s)) -> all_digits x.
Proof.
  intros Hne Hx.
  destruct (Find_groups s Hne) as (_ & G2 & F3 & F4 & F5 & _ & F7 & F8 & F9).
  cbv zeta in *. unfold numerals in Hx.
  apply in_app_or in Hx as [Hx|Hx].
  - destruct (str_eqb _ _ && nonempty _) eqn:E; [|destruct Hx].
    destruct Hx as [<-|[]].
    apply andb_true_iff in E as [_ E].
    destruct G2 as [G2|G2]; [rewrite G2 in E; discriminate|exact G2].
  - apply in_flat_map in Hx as (i & Hi & Hx).
    destruct (nonempty (index (FindStringSubmatch s) i)) eqn:E; [|destruct Hx].
    destruct Hx as [<-|[]].
    assert (HF : exists u, field_text u (index (FindStringSubmatch s) i)).
    { simpl in Hi.
      destruct Hi as [<-|[<-|[<-|[<-|[<-|[<-|[]]]]]]]; eauto. }
    destruct HF as (u & [E0|(ds & Hds & E1)]).
    + rewrite E0 in E. discriminate.
    + rewrite E1, chop_snoc. exact Hds.
Qed.

Lemma Atoi_digits_error (ds : gostring) (e : goerror) :
  all_digits ds -> snd (Atoi ds) = Some e ->
  e = NumError (str "Atoi") ds ErrRange.
Proof.
  intros Hds HA. rewrite (Atoi_digits ds Hds) in HA.
  destruct (maxInt <? decimal_value ds); cbn [snd] in HA;
    [injection HA as <-; reflexivity|discriminate HA].
Qed.

(** ** Durations *)

Lemma wrap64_add_l (a b : Z) : wrap64 (wrap64 a + b) = wrap64 (a + b).
Proof.
  unfold wrap64. f_equal.
  replace ((a + 2 ^ 63) mod 2 ^ 64 - 2 ^ 63 + b + 2 ^ 63)
    with ((a + 2 ^ 63) mod 2 ^ 64 + b) by lia.
  rewrite Zplus_mod_idemp_l. f_equal. lia.
Qed.

Lemma wrap64_add_r (a b : Z) : wrap64 (a + wrap64 b) = wrap64 (a + b).
Proof.
  rewrite Z.add_comm, wrap64_add_l. f_equal. lia.
Qed.

Lemma wrap64_small (z : Z) : in_int z -> wrap64 z = z.
Proof.
  unfold in_int, minInt, maxInt, wrap64. intros Hz.
  rewrite Z.mod_small by lia. lia.
Qed.

Lemma wrap64_range (z : Z) : in_int (wrap64 z).
Proof.
  unfold in_int, minInt, maxInt, wrap64.
  pose proof (Z.mod_pos_bound (z + 2 ^ 63) (2 ^ 64) ltac:(lia)). lia.
Qed.

Lemma wrap64_idem (z : Z) : wrap64 (wrap64 z) = wrap64 z.
Proof. apply wrap64_small, wrap64_range. Qed.

(** The three products and two sums of [New], [Parse] and [Next] reduce the
    exact nanosecond count once. *)
Lemma clock_sum (h m s : Z) :
  Duration.add (Duration.add (Duration.mul h Duration.Hour)
                             (Duration.mul m Duration.Minute))
               (Duration.mul s Duration.Second)
  = wrap64 (clock_ns h m s).
Proof.
  unfold Duration.add, Duration.mul.
  rewrite wrap64_add_l, wrap64_add_r, <- Z.add_assoc, wrap64_add_l,
    Z.add_assoc, (Z.add_comm (h * _)), <- Z.add_assoc, wrap64_add_l.
  f_equal. unfold clock_ns, Duration.Hour, Duration.Minute, Duration.Second. lia.
Qed.

Lemma clock_sum_flipped (h m s : Z) :
  Duration.add (Duration.add (Duration.mul Duration.Hour h)
                             (Duration.mul Duration.Minute m))
               (Duration.mul Duration.Second s)
  = wrap64 (clock_ns h m s).
Proof.
  rewrite <- clock_sum. unfold Duration.mul.
  rewrite (Z.mul_comm Duration.Hour), (Z.mul_comm Duration.Minute),
    (Z.mul_comm Duration.Second). reflexivity.
Qed.

Lemma New_time {T : Type} (now : T) (rep y mo d h mi s : Z) :
  time (New now rep y mo d h mi s) = wrap64 (clock_ns h mi s).
Proof. unfold New. simpl. apply clock_sum. Qed.

Lemma accumulated_add (m : gostring) (unit t : Z) :
  in_int t ->
  accumulated m unit t = Duration.add t (Duration.mul (stored m 0) unit).
Proof.
  intros Ht. unfold accumulated, stored. destruct (nonempty m); [reflexivity|].
  unfold Duration.add, Duration.mul. simpl.
  rewrite wrap64_add_r, Z.add_0_r, wrap64_small; auto.
Qed.

Lemma accumulated_range (m : gostring) (unit t : Z) :
  in_int t -> in_int (accumulated m unit t).
Proof.
  intros Ht. unfold accumulated. destruct (nonempty m); [|exact Ht].
  apply wrap64_range.
Qed.

Lemma Parse_time (text : gostring) (p : Period) :
  Parse text = (Some p, None) ->
  time p = wrap64 (clock_ns (Hour p) (Minute p) (Second p)).
Proof.
  intros HP. apply Parse_ok in HP as [_ HP].
  apply parse_fields_inl in HP
    as (_ & _ & _ & _ & -> & -> & -> & -> & _).
  assert (H0 : in_int (time zero_period))
    by (cbn; unfold in_int, minInt, maxInt; lia).
  pose proof (accumulated_range (index (FindStringSubmatch text) 7)
                Duration.Hour _ H0) as H1.
  pose proof (accumulated_range (index (FindStringSubmatch text) 8)
                Duration.Minute _ H1) as H2.
  rewrite (accumulated_add _ _ _ H2), (accumulated_add _ _ _ H1),
    (accumulated_add _ _ _ H0).
  rewrite <- clock_sum. cbn [Hour Minute Second time zero_period].
  f_equal. f_equal. unfold Duration.add. simpl Z.add. apply wrap64_idem.
Qed.

(** ** The cached duration *)

(** C8, where the wording of the specification fails: the period [Parse]
    returns for ["PT3000000H"] (and the one [New] builds from the same
    components) has [Hour = 3000000], and its cached duration is negative:
    3000000 hours do not fit the 64-bit nanosecond count of a
    [time.Duration]. *)
Lemma cached_duration_overflows :
  let p := mkPeriod 0 0 0 0 3000000 0 0 (-7646744073709551616) chan_nil false in
  Parse (str "PT3000000H") = (Some p, None) /\
  New tt 0 0 0 0 3000000 0 0 = p /\
  time p <> clock_ns (Hour p) (Minute p) (Second p).
Proof.
  cbv zeta. split; [vm_compute; reflexivity|].
  split; [vm_compute; reflexivity|].
  vm_compute. discriminate.
Qed.

(** C8, as amended.  For every period built by [New] or returned by a
    successful [Parse], the cached sub-day duration is the nanosecond count
    of [Hour*3600 + Minute*60 + Second] seconds reduced to a 64-bit signed
    integer; it is exactly that count whenever the count fits. *)
Theorem cached_duration (p : Period) :
  produced p ->
  time p = wrap64 (clock_ns (Hour p) (Minute p) (Second p)) /\
  (in_int (clock_ns (Hour p) (Minute p) (Second p)) ->
   time p = clock_ns (Hour p) (Minute p) (Second p)).
Proof.
  intros Hp.
  assert (Hw : time p = wrap64 (clock_ns (Hour p) (Minute p) (Second p))).
  { destruct Hp as [(T & now & rep & y & mo & d & h & mi & s & ->)|[text HP]].
    - apply New_time.
    - apply (Parse_time text p HP). }
  split; [exact Hw|]. intros Hr. rewrite Hw. apply wrap64_small. exact Hr.
Qed.

Lemma cached_duration_witness :
  let p := New tt 20 1 6 2 2 0 0 in
  produced p /\ time p = clock_ns 2 0 0.
Proof.
  cbv zeta.
  assert (Hp : produced (New tt 20 1 6 2 2 0 0)).
  { left. exists unit, tt, 20, 1, 6, 2, 2, 0, 0. reflexivity. }
  split; [exact Hp|].
  apply (cached_duration (New tt 20 1 6 2 2 0 0) Hp).
  unfold in_int, minInt, maxInt. vm_compute. split; discriminate.
Defined.

(** ** Next *)

(** C4.  With [Repetitions = 0], [Next] returns the zero time whatever the
    reference time is (and leaves the period as it was). *)
Theorem Next_zero_repetitions `{Clock} (p : Period) (t : Time) :
  Repetitions p = 0 -> Next p t = (p, zeroTime).
Proof.
  intros Hr. unfold Next. rewrite Hr. reflexivity.
Qed.

Lemma Next_zero_repetitions_witness :
  @Next recording_clock (New tt 0 3 9 7 12 30 50) (instant 0)
  = (New tt 0 3 9 7 12 30 50, zero_instant).
Proof.
  apply (@Next_zero_repetitions recording_clock
           (New tt 0 3 9 7 12 30 50) (instant 0)).
  reflexivity.
Defined.

(** C5, where the wording of the specification fails: on the clock that
    records its calls, [Next] of a period of 3000000 hours adds a negative duration, not
    3000000 hours. *)
Lemma Next_duration_overflows :
  let p := New tt 1 0 0 0 3000000 0 0 in
  Repetitions p <> 0 /\
  @Next recording_clock p (instant 0)
  = (p, add_duration (add_date (instant 0) 0 0 0) (-7646744073709551616)) /\
  @Next recording_clock p (instant 0)
  <> (p, @Add recording_clock
           (@AddDate recording_clock (instant 0) (Year p) (Month p) (Day p))
           (clock_ns (Hour p) (Minute p) (Second p))).
Proof.
  cbv zeta. split; [vm_compute; discriminate|].
  split; [vm_compute; reflexivity|].
  vm_compute. discriminate.
Qed.

(** C5, as amended.  With [Repetitions <> 0], [Next] returns the reference
    time advanced by [AddDate] over (Year, Month, Day) and then by [Add] of
    the [time.Duration] of [Hour] hours + [Minute] minutes + [Second]
    seconds, a nanosecond count reduced to 64 bits, which is the exact
    amount whenever that fits.  The period is left as it was, so a second
    call with the same reference time returns the same result. *)
Theorem Next_nonzero_repetitions `{Clock} (p : Period) (t : Time) :
  Repetitions p <> 0 ->
  Next p t = (p, Add (AddDate t (Year p) (Month p) (Day p))
                     (wrap64 (clock_ns (Hour p) (Minute p) (Second p)))) /\
  (in_int (clock_ns (Hour p) (Minute p) (Second p)) ->
   Next p t = (p, Add (AddDate t (Year p) (Month p) (Day p))
                      (clock_ns (Hour p) (Minute p) (Second p)))) /\
  Next (fst (Next p t)) t = Next p t.
Proof.
  intros Hr.
  assert (E : Next p t
              = (p, Add (AddDate t (Year p) (Month p) (Day p))
                        (wrap64 (clock_ns (Hour p) (Minute p) (Second p))))).
  { unfold Next. destruct (Repetitions p =? 0) eqn:E0.
    - apply Z.eqb_eq in E0. contradiction.
    - rewrite clock_sum_flipped. reflexivity. }
  split; [exact E|]. split.
  - intros Hfit. rewrite E, wrap64_small by exact Hfit. reflexivity.
  - rewrite E. simpl fst. exact E.
Qed.

Lemma Next_nonzero_repetitions_witness :
  @Next recording_clock (New tt 20 1 6 2 2 0 0) (instant 0)
  = (New tt 20 1 6 2 2 0 0,
     add_duration (add_date (instant 0) 1 6 2) 7200000000000).
Proof.
  apply (@Next_nonzero_repetitions recording_clock
           (New tt 20 1 6 2 2 0 0) (instant 0)).
  vm_compute. discriminate.
Defined.

(** ** Parse: the repetition prefix *)

(** In a successful [Parse], the whole match is group 1 (empty or ["R"]),
    then group 2 (empty or digits), then an optional ["/"] and the ["P"];
    the repetition count follows from groups 1 and 2. *)
Lemma Parse_repetitions_of_match (s : gostring) (p : Period) :
  Parse s = (Some p, None) ->
  let ms := FindStringSubmatch s in
  (exists sl rest, (sl = [] \/ sl = str "/") /\
     index ms 0 = index ms 1 ++ index ms 2 ++ sl ++ str "P" ++ rest) /\
  (index ms 1 = [] \/ index ms 1 = str "R") /\
  (index ms 1 = str "R" -> index ms 2 = [] -> Repetitions p = -1) /\
  (index ms 1 = str "R" -> index ms 2 <> [] ->
     all_digits (index ms 2) /\ Repetitions p = decimal_value (index ms 2)) /\
  (index ms 1 = [] -> Repetitions p = 0).
Proof.
  intros HP ms. apply Parse_ok in HP as [Hne HP]. fold ms in Hne, HP.
  apply parse_fields_inl in HP as (HR & _ & _ & _ & _ & _ & _ & _ & _ & _ & HA).
  destruct (Find_shape s Hne) as (pre & s0 & _ & Hsh). fold ms in Hsh.
  destruct Hsh as (g1 & g2 & sl & g3 & g4 & g5 & g6 & g7 & g8 & g9 & rest
                   & Hms & _ & H1 & H2 & Hsl & _).
  assert (E1 : index ms 1 = g1) by (rewrite Hms; reflexivity).
  assert (E2 : index ms 2 = g2) by (rewrite Hms; reflexivity).
  assert (E0 : index ms 0 = g1 ++ g2 ++ sl ++ str "P" ++ g3 ++ g4 ++ g5 ++ g6
                               ++ g7 ++ g8 ++ g9) by (rewrite Hms; reflexivity).
  rewrite E0, E1, E2. rewrite E1, E2 in HR.
  split; [exists sl; eexists; split; [exact Hsl|reflexivity]|].
  split; [exact H1|].
  split; [|split].
  - intros -> ->. rewrite HR. reflexivity.
  - intros -> Hg2. destruct H2 as [->|Hd]; [congruence|].
    split; [exact Hd|].
    assert (Hn : nonempty g2 = true).
    { destruct g2; [congruence|reflexivity]. }
    rewrite HR. cbn [str_eqb str list_ascii_of_string Ascii.eqb Bool.eqb andb].
    rewrite Hn.
    assert (HA2 : snd (Atoi g2) = None).
    { apply HA. unfold numerals. rewrite E1, E2, Hn. simpl. auto. }
    destruct (Atoi g2) as [v e] eqn:EA. simpl in HA2. subst e.
    apply (Atoi_digits_ok g2 v Hd) in EA as [-> _]. reflexivity.
  - intros ->. rewrite HR. reflexivity.
Qed.

(** ** Parse: the components *)

Lemma Parse_component (s : gostring) (p : Period) (i : nat) (u : ascii) :
  Parse s = (Some p, None) ->
  In i [3; 4; 5; 7; 8; 9]%nat ->
  field_text u (index (FindStringSubmatch s) i) ->
  component_of u (index (FindStringSubmatch s) i)
               (stored (index (FindStringSubmatch s) i) 0).
Proof.
  intros HP Hi Hf. apply Parse_ok in HP as [_ HP].
  apply parse_fields_inl in HP as (_ & _ & _ & _ & _ & _ & _ & _ & _ & _ & HA).
  apply component_of_stored; [exact Hf|].
  intros Hn. apply HA, numerals_field; assumption.
Qed.

(** ** Parse: errors *)

(** C7.  When the recogniser finds no match, [Parse] returns the
    invalid-format error, also for a text whose digits no conversion would
    accept; ["garbage"] is such a text.  When a conversion [Parse] makes for
    a match fails, [Parse] returns no period and the [strconv] error (a
    range error) of one of the numerals.  And [Parse] returns a period or an
    error, never both and never neither. *)
Theorem Parse_errors :
  (forall s, FindStringSubmatch s = [] -> Parse s = (None, Some invalid_format)) /\
  Parse (str "garbage") = (None, Some invalid_format) /\
  Parse (str "99999999999999999999Y") = (None, Some invalid_format) /\
  (forall s x,
     FindStringSubmatch s <> [] ->
     In x (numerals (FindStringSubmatch s)) -> snd (Atoi x) <> None ->
     exists y, In y (numerals (FindStringSubmatch s)) /\
               Parse s = (None, Some (NumError (str "Atoi") y ErrRange))) /\
  Parse (str "P99999999999999999999Y")
  = (None, Some (NumError (str "Atoi") (str "99999999999999999999") ErrRange)) /\
  (forall s e, snd (Parse s) = Some e -> fst (Parse s) = None) /\
  (forall s, fst (Parse s) = None -> snd (Parse s) <> None).
Proof.
  split; [|split; [vm_compute; reflexivity|split; [vm_compute; reflexivity|]]].
  { intros s Hnil.
    destruct (Parse_cases s) as [[_ H]|[[Hne _]|[Hne _]]];
      [exact H|contradiction|contradiction]. }
  split; [|split; [vm_compute; reflexivity|]].
  { intros s x Hne Hx Hbad.
    destruct (Parse_cases s) as [[Hnil _]|[(_ & p & Hp & _)|(_ & e & He & HP)]].
    - contradiction.
    - apply parse_fields_inl in Hp
        as (_ & _ & _ & _ & _ & _ & _ & _ & _ & _ & HA).
      exfalso. apply Hbad, HA, Hx.
    - apply parse_fields_inr in He as (y & Hy & HAy).
      rewrite (Atoi_digits_error y e (numerals_digits s y Hne Hy) HAy) in HP.
      exists y. auto. }
  split.
  - intros s e.
    destruct (Parse_cases s) as [[_ H]|[(_ & p & _ & H)|(_ & e' & _ & H)]];
      rewrite H; simpl; congruence.
  - intros s.
    destruct (Parse_cases s) as [[_ H]|[(_ & p & _ & H)|(_ & e' & _ & H)]];
      rewrite H; simpl; congruence.
Qed.

Lemma Parse_errors_witness :
  exists y,
    In y (numerals (FindStringSubmatch (str "PT9223372036854775808S"))) /\
    Parse (str "PT9223372036854775808S")
    = (None, Some (NumError (str "Atoi") y ErrRange)).
Proof.
  apply (proj1 (proj2 (proj2 (proj2 Parse_errors)))
           (str "PT9223372036854775808S") (str "9223372036854775808")).
  - vm_compute. discriminate.
  - vm_compute. auto.
  - vm_compute. discriminate.
Defined.

(** ** Parse: which texts are rejected *)

(** The text of every group is part of the input. *)
Lemma groups_in_text (s : gostring) (i : nat) (x : ascii) :
  FindStringSubmatch s <> [] ->
  In i [1; 2; 3; 4; 5; 6; 7; 8; 9]%nat ->
  In x (index (FindStringSubmatch s) i) -> In x s.
Proof.
  intros Hne Hi. destruct (Find_shape s Hne) as (pre & s0 & -> & Hsh).
  destruct Hsh as (g1 & g2 & sl & g3 & g4 & g5 & g6 & g7 & g8 & g9 & rest
                   & -> & -> & _).
  unfold index.
  repeat (destruct Hi as [<-|Hi];
          [cbn [nth]; intros Hx; rewrite ?in_app_iff; simpl;
           rewrite ?in_app_iff; tauto|]).
  destruct Hi.
Qed.

Lemma field_text_no_digit (s : gostring) (i : nat) (u : ascii) :
  FindStringSubmatch s <> [] ->
  In i [3; 4; 5; 7; 8; 9]%nat ->
  (forall c, In c s -> is_digit c = false) ->
  field_text u (index (FindStringSubmatch s) i) ->
  index (FindStringSubmatch s) i = [].
Proof.
  intros Hne Hi Hno [E|(ds & [Hnil Hds] & E)]; [exact E|].
  exfalso. destruct ds as [|d ds]; [congruence|].
  simpl in Hds. apply andb_true_iff in Hds as [Hd _].
  rewrite (Hno d) in Hd; [discriminate|].
  apply (groups_in_text s i d Hne).
  - simpl in Hi. simpl. tauto.
  - rewrite E. simpl. auto.
Qed.

(** A text with a [P], no digit and no [R] parses to the all-zero period. *)
Lemma Parse_garbage_around_P (s : gostring) :
  In "P"%char s -> (forall c, In c s -> is_digit c = false) ->
  ~ In "R"%char s ->
  Parse s = (Some zero_period, None).
Proof.
  intros HP Hno HR.
  assert (Hne : FindStringSubmatch s <> []).
  { intros Hnil. apply Find_nil_iff in Hnil. contradiction. }
  destruct (Find_groups s Hne) as (G1 & _ & F3 & F4 & F5 & _ & F7 & F8 & F9).
  cbv zeta in *.
  assert (E1 : index (FindStringSubmatch s) 1 = []).
  { destruct G1 as [E|E]; [exact E|]. exfalso. apply HR.
    apply (groups_in_text s 1 "R" Hne); [simpl; tauto|rewrite E; simpl; auto]. }
  apply field_text_no_digit in F3, F4, F5, F7, F8, F9; auto; try (simpl; tauto).
  assert (Hnum : numerals (FindStringSubmatch s) = []).
  { unfold numerals. rewrite E1. cbn [flat_map]. rewrite F3, F4, F5, F7, F8, F9.
    reflexivity. }
  destruct (Parse_cases s) as [[Hnil _]|[(_ & p & Hp & H)|(_ & e & He & _)]].
  - contradiction.
  - rewrite H. apply parse_fields_inl in Hp
      as (A & B & C & D & E & F & G & I & J & K & _).
    rewrite E1 in A. rewrite F3 in B. rewrite F4 in C. rewrite F5 in D.
    rewrite F7 in E, I. rewrite F8 in F, I. rewrite F9 in G, I.
    destruct p; cbn in *; subst. reflexivity.
  - apply parse_fields_inr in He as (y & Hy & _). rewrite Hnum in Hy.
    destruct Hy.
Qed.

(** C9, where the wording of the specification fails: a text that contains
    a [P] can be rejected (with the range error of a conversion), and a text that
    contains a [P] and is accepted need not give the all-zero period. *)
Lemma Parse_with_P_counterexample :
  In "P"%char (str "P99999999999999999999Y") /\
  fst (Parse (str "P99999999999999999999Y")) = None /\
  In "P"%char (str "R5/P1Y") /\
  Parse (str "R5/P1Y") = (Some (mkPeriod 5 1 0 0 0 0 0 0 chan_nil false), None).
Proof.
  repeat split; try (vm_compute; reflexivity); simpl; tauto.
Qed.

(** C9, as amended.  [Parse] returns the invalid-format error exactly when
    the text contains no [P].  A text that contains a [P] is either parsed
    or rejected with the [strconv] range error of a numeral of its match;
    when it
    has, besides, no digit and no [R] (as ["xPy"]), it parses to the
    all-zero period with zero repetitions. *)
Theorem Parse_invalid_format_iff :
  (forall s, Parse s = (None, Some invalid_format) <-> ~ In "P"%char s) /\
  (forall s, In "P"%char s ->
     (exists p, Parse s = (Some p, None)) \/
     (exists y, In y (numerals (FindStringSubmatch s)) /\
                Parse s = (None, Some (NumError (str "Atoi") y ErrRange)))) /\
  (forall s, In "P"%char s -> (forall c, In c s -> is_digit c = false) ->
     ~ In "R"%char s -> Parse s = (Some zero_period, None)) /\
  Parse (str "xPy") = (Some zero_period, None).
Proof.
  split; [|split; [|split; [exact Parse_garbage_around_P|vm_compute; reflexivity]]].
  - intros s. rewrite <- Find_nil_iff. split.
    + intros HP.
      destruct (Parse_cases s) as [[Hnil _]|[(_ & p & _ & H)|(_ & e & He & H)]].
      * exact Hnil.
      * rewrite H in HP. discriminate.
      * rewrite H in HP. apply parse_fields_inr in He as (y & _ & HA).
        destruct (Atoi_error y e HA) as [k ->]. discriminate.
    + intros Hnil.
      destruct (Parse_cases s) as [[_ H]|[[Hne _]|[Hne _]]];
        [exact H|contradiction|contradiction].
  - intros s HP.
    destruct (Parse_cases s) as [[Hnil _]|[(_ & p & _ & H)|(_ & e & He & H)]].
    + apply Find_nil_iff in Hnil. contradiction.
    + left. eauto.
    + right. apply parse_fields_inr in He as (y & Hy & HA).
      assert (Hne : FindStringSubmatch s <> []).
      { intros Hnil. apply Find_nil_iff in Hnil. contradiction. }
      rewrite (Atoi_digits_error y e (numerals_digits s y Hne Hy) HA) in H.
      eauto.
Qed.

Lemma Parse_invalid_format_iff_witness :
  Parse (str "T-P;") = (Some zero_period, None).
Proof.
  apply (proj1 (proj2 (proj2 Parse_invalid_format_iff)) (str "T-P;")).
  - simpl. tauto.
  - intros c Hc. simpl in Hc.
    repeat (destruct Hc as [<-|Hc]; [reflexivity|]). destruct Hc.
  - simpl. intros H.
    repeat (destruct H as [H|H]; [discriminate|]). destruct H.
Defined.

(** ** Start and Stop *)

Section SchedulerFacts.
Context `{Clock}.

Lemma Start_inv (r : Period) : stream_inv (Repetitions r) (Start r).
Proof. unfold stream_inv, Start. simpl. auto. Qed.

Lemma length_emit (out : list Time) (t : Time) (receiving : bool) :
  Z.of_nat (length (if receiving then out ++ [t] else out))
  <= Z.of_nat (length out) + 1.
Proof.
  destruct receiving; [|lia]. rewrite length_app. simpl. lia.
Qed.

(** Every transition keeps the invariant. *)
Lemma react_inv (N : Z) (st : stream) (e : event) :
  0 < N -> stream_inv N st -> stream_inv N (react st e).
Proof.
  intros HN. unfold react. destruct (crashed st) eqn:Ecr; [auto|].
  unfold stream_inv.
  destruct st as [r a sd tk ph out w cr]. simpl in Ecr. subst cr.
  destruct ph; simpl.
  - (* Spawned *)
    intros (-> & -> & -> & Hd). destruct e as [|t rc| |]; simpl.
    + rewrite Hd. repeat split; auto; lia.
    + auto.
    + auto.
    + unfold Stop. simpl. destruct (running r); simpl; [|auto].
      rewrite Hd. simpl. auto.
  - (* Looping *)
    intros (Ha & Hlen & -> & Hd & Hr). destruct e as [|t rc| |]; simpl.
    + auto.
    + unfold on_tick. simpl.
      pose proof (length_emit out t rc) as Hout.
      destruct (Z.gtb_spec a 0) as [_|Hle]; [|lia].
      destruct (Z.eqb_spec (a - 1) 0) as [E|E]; simpl.
      * repeat split; auto. lia.
      * rewrite Hd, Hr. repeat split; auto; lia.
    + unfold on_done. simpl. destruct w as [|w]; simpl.
      * rewrite Hd, Hr. repeat split; auto.
      * repeat split; auto. lia.
    + unfold Stop. simpl. rewrite Hr, Hd. simpl. rewrite Hd, Hr.
      repeat split; auto.
  - (* Exited *)
    intros (Hlen & -> & Hr). destruct e as [|t rc| |]; simpl; auto.
    unfold Stop. simpl. rewrite Hr. simpl. auto.
Qed.

Lemma run_inv (N : Z) (evs : list event) :
  0 < N -> forall st, stream_inv N st -> stream_inv N (run evs st).
Proof.
  intros HN. unfold run. induction evs as [|e evs IH]; intros st Hinv.
  - exact Hinv.
  - simpl. apply IH, react_inv; assumption.
Qed.

Lemma inv_bound (N : Z) (st : stream) :
  0 < N -> stream_inv N st -> Z.of_nat (length (emitted st)) <= N.
Proof.
  intros HN. unfold stream_inv. destruct (at_phase st).
  - intros (_ & -> & _). simpl. lia.
  - intros (Ha & Hlen & _). lia.
  - intros (Hlen & _). exact Hlen.
Qed.

Lemma inv_closed (N : Z) (st : stream) :
  stream_inv N st -> sender st = chan_closed ->
  at_phase st = Exited /\ running (period st) = false.
Proof.
  unfold stream_inv. destruct (at_phase st).
  - intros (_ & _ & -> & _). discriminate.
  - intros (_ & _ & -> & _). discriminate.
  - intros (_ & _ & Hr) _. auto.
Qed.

(** Nothing moves a stream whose goroutine has returned. *)
Lemma react_exited (st : stream) (e : event) :
  at_phase st = Exited -> running (period st) = false -> react st e = st.
Proof.
  intros Hph Hr. unfold react. destruct (crashed st); [reflexivity|].
  destruct e as [|t rc| |]; simpl.
  - rewrite Hph. reflexivity.
  - rewrite Hph. reflexivity.
  - rewrite Hph. reflexivity.
  - unfold Stop. rewrite Hr. reflexivity.
Qed.

Lemma run_exited (evs : list event) (st : stream) :
  at_phase st = Exited -> running (period st) = false -> run evs st = st.
Proof.
  intros Hph Hr. unfold run. induction evs as [|e evs IH]; [reflexivity|].
  simpl. rewrite react_exited by assumption. exact IH.
Qed.

(** As many ticks as the countdown holds end the loop. *)
Lemma ticks_exhaust (ticks : list event) :
  Forall (fun e => is_tick e = true) ticks ->
  forall st, at_phase st = Looping -> crashed st = false ->
    amount st = Z.of_nat (length ticks) -> 0 < amount st ->
    sender (run ticks st) = chan_closed.
Proof.
  induction 1 as [|e ticks He Hall IH]; intros st Hph Hcr Ha Hpos.
  - simpl in Ha. lia.
  - destruct e as [|t rc| |]; try discriminate.
    change (run (Tick t rc :: ticks) st) with (run ticks (react st (Tick t rc))).
    unfold react. rewrite Hcr, Hph. unfold on_tick.
    destruct (Z.gtb_spec (amount st) 0) as [_|Hle]; [|lia].
    simpl length in Ha. rewrite Nat2Z.inj_succ in Ha.
    destruct (Z.eqb_spec (amount st - 1) 0) as [E|E].
    + rewrite run_exited; reflexivity.
    + apply IH; simpl; auto; lia.
Qed.
End SchedulerFacts.

(** C10.  A stream started on a period with [Repetitions = N > 0] hands the
    consumer at most [N] values, whatever the scheduler, the ticker, the
    consumer and callers of [Stop] do; once the channel is closed nothing
    more happens to the stream (so all emissions come before the close);
    [N] ticks after the goroutine has begun, the channel is closed; and
    [Stop] on a closed stream returns at once and changes nothing. *)
Theorem Start_emits_at_most `{Clock} (r : Period) (N : Z) :
  Repetitions r = N -> 0 < N ->
  (forall evs, Z.of_nat (length (emitted (run evs (Start r)))) <= N) /\
  (forall evs evs', sender (run evs (Start r)) = chan_closed ->
     run (evs ++ evs') (Start r) = run evs (Start r)) /\
  (forall ticks, Forall (fun e => is_tick e = true) ticks ->
     Z.of_nat (length ticks) = N ->
     sender (run (Run :: ticks) (Start r)) = chan_closed) /\
  (forall evs, sender (run evs (Start r)) = chan_closed ->
     Stop (run evs (Start r)) = (run evs (Start r), Returned)).
Proof.
  intros HN Hpos.
  assert (Hinv : forall evs, stream_inv N (run evs (Start r))).
  { intros evs. apply run_inv; [exact Hpos|]. rewrite <- HN. apply Start_inv. }
  split; [|split; [|split]].
  - intros evs. apply inv_bound; [exact Hpos|apply Hinv].
  - intros evs evs' Hc.
    destruct (inv_closed N _ (Hinv evs) Hc) as [Hph Hr].
    unfold run. rewrite fold_left_app. apply run_exited; assumption.
  - intros ticks Hall Hlen.
    change (run (Run :: ticks) (Start r))
      with (run ticks (react (Start r) Run)).
    apply ticks_exhaust; simpl; auto; lia.
  - intros evs Hc.
    destruct (inv_closed N _ (Hinv evs) Hc) as [_ Hr].
    unfold Stop. rewrite Hr. reflexivity.
Qed.

Lemma Start_emits_at_most_witness :
  let st := @run recording_clock
              [Run; Tick (instant 1) true; Tick (instant 2) false]
              (Start (New tt 2 0 0 0 0 0 1)) in
  sender st = chan_closed /\ emitted st = [instant 1] /\
  Stop st = (st, Returned).
Proof.
  cbv zeta.
  destruct (@Start_emits_at_most recording_clock (New tt 2 0 0 0 0 0 1) 2
              eq_refl ltac:(lia)) as (_ & _ & Hclose & Hstop).
  assert (Hc : sender (@run recording_clock
                         [Run; Tick (instant 1) true; Tick (instant 2) false]
                         (Start (New tt 2 0 0 0 0 0 1))) = chan_closed).
  { apply Hclose; [repeat constructor|reflexivity]. }
  split; [exact Hc|]. split; [reflexivity|]. apply Hstop. exact Hc.
Defined.

(** ** The matcher finds the groups of a well-formed text *)

Lemma Find_here (s : gostring) (ms : list gostring) :
  match_here s = Some ms -> FindStringSubmatch s = ms.
Proof.
  intros Hm. destruct s as [|x s].
  - change (FindStringSubmatch [])
      with (match match_here [] with Some c => c | None => [] end).
    rewrite Hm. reflexivity.
  - change (FindStringSubmatch (x :: s))
      with (match match_here (x :: s) with
            | Some c => c
            | None => FindStringSubmatch s
            end).
    rewrite Hm. reflexivity.
Qed.

Section Completeness.
Context {A : Type}.

Lemma plus_loop_not_digit (k : @cont A) (n : nat) (s : gostring) (c : caps) :
  not_digit_head s -> plus_loop (rmatch Digit) k n s c = None.
Proof.
  intros Hs. destruct n as [|n]; [reflexivity|].
  simpl. destruct s as [|x s]; [reflexivity|].
  simpl in Hs. rewrite Hs. reflexivity.
Qed.

(** [\d+] takes the whole run of digits when what follows accepts. *)
Lemma plus_loop_digits (k : @cont A) (s' : gostring) (c : caps) (a : A) :
  not_digit_head s' -> k s' c = Some a ->
  forall ds n, all_digits ds -> (length ds <= n)%nat ->
    plus_loop (rmatch Digit) k n (ds ++ s') c = Some a.
Proof.
  intros Hs' Hk. induction ds as [|d ds IH]; intros n [Hne Hds] Hn.
  - congruence.
  - simpl in Hds. apply andb_true_iff in Hds as [Hd Hds].
    destruct n as [|n]; [simpl in Hn; lia|].
    simpl in Hn. simpl. rewrite Hd.
    destruct ds as [|d' ds].
    + simpl. rewrite plus_loop_not_digit by exact Hs'. simpl. exact Hk.
    + rewrite IH; [reflexivity|split; [discriminate|exact Hds]|lia].
Qed.

Lemma rmatch_field_hit (i : nat) (u : ascii) (ds t : gostring) (c : caps)
      (k : @cont A) (a : A) :
  is_digit u = false -> all_digits ds ->
  k t (upd i (ds ++ [u]) c) = Some a ->
  rmatch (field i u) (ds ++ u :: t) c k = Some a.
Proof.
  intros Hu Hds Hk. unfold field.
  cbn [rmatch].
  rewrite (plus_loop_digits _ (u :: t) c a); [reflexivity|exact Hu| |exact Hds|].
  - cbn [rmatch]. rewrite Ascii.eqb_refl.
    replace (ds ++ u :: t) with ((ds ++ [u]) ++ t)
      by (rewrite <- app_assoc; reflexivity).
    rewrite consumed_app. exact Hk.
  - rewrite length_app. lia.
Qed.

Lemma rmatch_field_skip (i : nat) (u : ascii) (s : gostring) (c : caps)
      (k : @cont A) :
  no_field u s -> rmatch (field i u) s c k = k s c.
Proof.
  intros Hno. unfold field.
  change (rmatch (Opt (Cap i (Cat (Plus Digit) (Chr u)))) s c k)
    with (orelse (rmatch (Cap i (Cat (Plus Digit) (Chr u))) s c k) (k s c)).
  destruct (rmatch (Cap i (Cat (Plus Digit) (Chr u))) s c k) as [a|] eqn:E;
    [|reflexivity].
  exfalso. apply rmatch_sound in E as (s' & c' & Hd & _).
  destruct Hd as (c1 & (s1 & c2 & Hd & -> & _) & _).
  apply denote_digits in Hd as [_ (ds & Hds & ->)].
  apply (Hno ds s' Hds). reflexivity.
Qed.

(** One numeric field of a well-formed text. *)
Lemma rmatch_field_step (i : nat) (u : ascii) (g t : gostring) (c : caps)
      (k : @cont A) (a : A) :
  is_digit u = false -> field_text u g -> (g = [] -> no_field u t) ->
  nth i c [] = [] ->
  k t (upd i g c) = Some a ->
  rmatch (field i u) (g ++ t) c k = Some a.
Proof.
  intros Hu [->|(ds & Hds & ->)] Hno Hi Hk.
  - change ([] ++ t) with t. rewrite rmatch_field_skip by auto.
    rewrite upd_same in Hk by exact Hi. exact Hk.
  - rewrite <- app_assoc. simpl. apply rmatch_field_hit; assumption.
Qed.

(** An optional literal in a group. *)
Lemma rmatch_opt_chr_step (i : nat) (x : ascii) (g t : gostring) (c : caps)
      (k : @cont A) (a : A) :
  (g = [] \/ g = [x]) -> (g = [] -> not_head x t) ->
  nth i c [] = [] ->
  k t (upd i g c) = Some a ->
  rmatch (Opt (Cap i (Chr x))) (g ++ t) c k = Some a.
Proof.
  intros [-> | ->] Hno Hi Hk.
  - rewrite upd_same in Hk by exact Hi. simpl.
    destruct t as [|y t]; [exact Hk|].
    specialize (Hno eq_refl). simpl in Hno.
    destruct (Ascii.eqb y x) eqn:E; [apply Ascii.eqb_eq in E; contradiction|].
    exact Hk.
  - cbn [rmatch app]. rewrite Ascii.eqb_refl.
    change (x :: t) with ([x] ++ t). rewrite consumed_app, Hk. reflexivity.
Qed.

(** An optional literal outside any group. *)
Lemma rmatch_opt_lit_step (x : ascii) (g t : gostring) (c : caps)
      (k : @cont A) (a : A) :
  (g = [] \/ g = [x]) -> (g = [] -> not_head x t) ->
  k t c = Some a ->
  rmatch (Opt (Chr x)) (g ++ t) c k = Some a.
Proof.
  intros [-> | ->] Hno Hk.
  - simpl. destruct t as [|y t]; [exact Hk|].
    specialize (Hno eq_refl). simpl in Hno.
    destruct (Ascii.eqb y x) eqn:E; [apply Ascii.eqb_eq in E; contradiction|].
    exact Hk.
  - cbn [rmatch app]. rewrite Ascii.eqb_refl, Hk. reflexivity.
Qed.

(** The optional run of digits of group [i]. *)
Lemma rmatch_opt_digits_step (i : nat) (g t : gostring) (c : caps)
      (k : @cont A) (a : A) :
  (g = [] \/ all_digits g) -> not_digit_head t ->
  nth i c [] = [] ->
  k t (upd i g c) = Some a ->
  rmatch (Opt (Cap i (Plus Digit))) (g ++ t) c k = Some a.
Proof.
  intros [->|Hds] Ht Hi Hk.
  - rewrite upd_same in Hk by exact Hi. cbn [rmatch app].
    rewrite plus_loop_not_digit by exact Ht. exact Hk.
  - cbn [rmatch].
    rewrite (plus_loop_digits _ t c a); [reflexivity|exact Ht| |exact Hds|].
    + rewrite consumed_app. exact Hk.
    + rewrite length_app. lia.
Qed.
End Completeness.

Lemma rmatch_Cat {A : Type} (r1 r2 : regex) (s : gostring) (c : caps)
      (k : @cont A) :
  rmatch (Cat r1 r2) s c k = rmatch r1 s c (fun s1 c1 => rmatch r2 s1 c1 k).
Proof. reflexivity. Qed.

Lemma rmatch_Chr_hit {A : Type} (x : ascii) (t : gostring) (c : caps)
      (k : @cont A) :
  rmatch (Chr x) (x :: t) c k = k t c.
Proof. simpl. rewrite Ascii.eqb_refl. reflexivity. Qed.

Lemma not_head_digits (x : ascii) (g t : gostring) :
  is_digit x = false -> (g = [] \/ all_digits g) -> not_head x t ->
  not_head x (g ++ t).
Proof.
  intros Hx [->|[Hne Hds]] Ht; [exact Ht|].
  destruct g as [|d g]; [congruence|]. simpl in *.
  apply andb_true_iff in Hds as [Hd _]. congruence.
Qed.

(** The converse of [match_here_shape]: a text made of the groups of the
    pattern, each one either present or followed by something that cannot
    be mistaken for it, is matched into exactly these groups. *)
Lemma match_here_complete (g1 g2 sl g3 g4 g5 g6 g7 g8 g9 rest : gostring) :
  (g1 = [] \/ g1 = str "R") -> (g2 = [] \/ all_digits g2) ->
  (sl = [] \/ sl = str "/") ->
  field_text "Y" g3 -> field_text "M" g4 -> field_text "D" g5 ->
  (g6 = [] \/ g6 = str "T") ->
  field_text "H" g7 -> field_text "M" g8 -> field_text "S" g9 ->
  (g3 = [] -> no_field "Y" (g4 ++ g5 ++ g6 ++ g7 ++ g8 ++ g9 ++ rest)) ->
  (g4 = [] -> no_field "M" (g5 ++ g6 ++ g7 ++ g8 ++ g9 ++ rest)) ->
  (g5 = [] -> no_field "D" (g6 ++ g7 ++ g8 ++ g9 ++ rest)) ->
  (g6 = [] -> not_head "T" (g7 ++ g8 ++ g9 ++ rest)) ->
  (g7 = [] -> no_field "H" (g8 ++ g9 ++ rest)) ->
  (g8 = [] -> no_field "M" (g9 ++ rest)) ->
  (g9 = [] -> no_field "S" rest) ->
  match_here ((g1 ++ g2 ++ sl ++ str "P" ++ g3 ++ g4 ++ g5 ++ g6 ++ g7 ++ g8
                  ++ g9) ++ rest)
  = Some [g1 ++ g2 ++ sl ++ str "P" ++ g3 ++ g4 ++ g5 ++ g6 ++ g7 ++ g8 ++ g9;
          g1; g2; g3; g4; g5; g6; g7; g8; g9].
Proof.
  intros H1 H2 Hsl F3 F4 F5 H6 F7 F8 F9 N3 N4 N5 N6 N7 N8 N9.
  unfold match_here.
  set (whole := g1 ++ g2 ++ sl ++ str "P" ++ g3 ++ g4 ++ g5 ++ g6 ++ g7 ++ g8
                   ++ g9).
  assert (Hc : consumed (whole ++ rest) rest = whole) by apply consumed_app.
  revert Hc. generalize (whole ++ rest) at 1 3. intros s0 Hc.
  assert (Hin : whole ++ rest
                = g1 ++ g2 ++ sl ++ "P"%char :: g3 ++ g4 ++ g5 ++ g6 ++ g7
                     ++ g8 ++ g9 ++ rest).
  { unfold whole. repeat first [rewrite <- app_assoc | progress simpl].
    reflexivity. }
  rewrite Hin. clear Hin. unfold compiler.
  rewrite rmatch_Cat. apply rmatch_opt_chr_step; [exact H1| |reflexivity|].
  { intros _. apply not_head_digits; [reflexivity|exact H2|].
    destruct Hsl as [->| ->]; simpl; discriminate. }
  cbv beta. rewrite rmatch_Cat.
  apply rmatch_opt_digits_step; [exact H2| |reflexivity|].
  { destruct Hsl as [->| ->]; reflexivity. }
  cbv beta. rewrite rmatch_Cat.
  apply rmatch_opt_lit_step; [exact Hsl|intros _; simpl; discriminate|].
  cbv beta. rewrite rmatch_Cat.
  rewrite rmatch_Chr_hit.
  rewrite rmatch_Cat.
  apply rmatch_field_step; [reflexivity|exact F3|exact N3|reflexivity|].
  cbv beta. rewrite rmatch_Cat.
  apply rmatch_field_step; [reflexivity|exact F4|exact N4|reflexivity|].
  cbv beta. rewrite rmatch_Cat.
  apply rmatch_field_step; [reflexivity|exact F5|exact N5|reflexivity|].
  cbv beta. rewrite rmatch_Cat.
  apply rmatch_opt_chr_step; [exact H6|exact N6|reflexivity|].
  cbv beta. rewrite rmatch_Cat.
  apply rmatch_field_step; [reflexivity|exact F7|exact N7|reflexivity|].
  cbv beta. rewrite rmatch_Cat.
  apply rmatch_field_step; [reflexivity|exact F8|exact N8|reflexivity|].
  cbv beta.
  apply rmatch_field_step; [reflexivity|exact F9|exact N9|reflexivity|].
  rewrite Hc. reflexivity.
Qed.

(** ** Texts that cannot be mistaken for a field *)

Lemma no_field_not_digit (u : ascii) (s : gostring) :
  not_digit_head s -> no_field u s.
Proof.
  intros Hs ds t [Hne Hds] ->. destruct ds as [|d ds]; [congruence|].
  simpl in Hs, Hds. rewrite Hs in Hds. discriminate.
Qed.

(** A run of digits ends where its first non-digit stands. *)
Lemma digits_then_unique (a : gostring) :
  forall b x y s t,
    forallb is_digit a = true -> forallb is_digit b = true ->
    is_digit x = false -> is_digit y = false ->
    a ++ x :: s = b ++ y :: t -> x = y.
Proof.
  induction a as [|d a IH]; intros [|e b] x y s t Ha Hb Hx Hy E;
    simpl in *; inversion E; subst.
  - reflexivity.
  - apply andb_true_iff in Hb as [He _]. congruence.
  - apply andb_true_iff in Ha as [Hd _]. congruence.
  - apply andb_true_iff in Ha as [_ Ha]. apply andb_true_iff in Hb as [_ Hb].
    eapply IH; eauto.
Qed.

Lemma no_field_token (u u' : ascii) (ds t : gostring) :
  forallb is_digit ds = true -> is_digit u = false -> is_digit u' = false ->
  u' <> u -> no_field u (ds ++ u' :: t).
Proof.
  intros Hds Hu Hu' Hneq ds2 t2 [_ Hds2] E.
  apply Hneq. eapply (digits_then_unique ds ds2); eauto.
Qed.

Lemma part_cases (v : Z) (u : ascii) :
  0 <= v <= maxInt ->
  (v = 0 /\ part v u = []) \/
  (0 < v /\ part v u = Itoa v ++ [u] /\ all_digits (Itoa v)).
Proof.
  intros Hv. unfold part. destruct (Z.ltb_spec 0 v) as [Hpos|Hle].
  - right. split; [exact Hpos|]. split; [reflexivity|].
    apply Itoa_digits. lia.
  - left. split; [lia|reflexivity].
Qed.

Lemma field_text_part (v : Z) (u : ascii) :
  0 <= v <= maxInt -> field_text u (part v u).
Proof.
  intros Hv. destruct (part_cases v u Hv) as [[_ ->]|(_ & -> & Hd)].
  - left. reflexivity.
  - right. exists (Itoa v). auto.
Qed.

Lemma no_field_part (u u' : ascii) (v : Z) (t : gostring) :
  0 <= v <= maxInt -> is_digit u = false -> is_digit u' = false -> u' <> u ->
  no_field u t -> no_field u (part v u' ++ t).
Proof.
  intros Hv Hu Hu' Hneq Ht.
  destruct (part_cases v u' Hv) as [[_ ->]|(_ & -> & [_ Hd])].
  - exact Ht.
  - rewrite <- app_assoc. simpl. apply no_field_token; assumption.
Qed.

Lemma stored_part (v : Z) (u : ascii) :
  0 <= v <= maxInt -> stored (part v u) 0 = v.
Proof.
  intros Hv. unfold stored.
  destruct (part_cases v u Hv) as [[-> ->]|(Hpos & -> & [Hne _])].
  - reflexivity.
  - assert (Hn : nonempty (Itoa v ++ [u]) = true).
    { destruct (Itoa v); [congruence|reflexivity]. }
    rewrite Hn, chop_snoc, Atoi_Itoa by lia. reflexivity.
Qed.

Lemma convertible_part (v : Z) (u : ascii) :
  0 <= v <= maxInt -> convertible (part v u).
Proof.
  intros Hv Hn.
  destruct (part_cases v u Hv) as [[_ E]|(Hpos & E & _)]; rewrite E in *.
  - discriminate.
  - rewrite chop_snoc, Atoi_Itoa by lia. reflexivity.
Qed.

Lemma numerals_ok (ms : list gostring) :
  (nonempty (index ms 2) = true -> snd (Atoi (index ms 2)) = None) ->
  (forall i, In i [3; 4; 5; 7; 8; 9]%nat -> convertible (index ms i)) ->
  forall x, In x (numerals ms) -> snd (Atoi x) = None.
Proof.
  intros H2 Hall x Hx. unfold numerals in Hx.
  apply in_app_or in Hx as [Hx|Hx].
  - destruct (str_eqb (index ms 1) (str "R")); simpl in Hx; [|destruct Hx].
    destruct (nonempty (index ms 2)) eqn:E; simpl in Hx; [|destruct Hx].
    destruct Hx as [<-|[]]. auto.
  - apply in_flat_map in Hx as (i & Hi & Hx).
    destruct (nonempty (index ms i)) eqn:E; simpl in Hx; [|destruct Hx].
    destruct Hx as [<-|[]]. apply (Hall i Hi E).
Qed.

(** [Parse] of a text whose match at the head is known and whose numerals
    convert. *)
Lemma Parse_of_match (s : gostring) (ms : list gostring) :
  match_here s = Some ms ->
  (forall x, In x (numerals ms) -> snd (Atoi x) = None) ->
  exists q, Parse s = (Some q, None) /\ parse_fields ms zero_period = inl q.
Proof.
  intros Hm Hnum. pose proof (Find_here s ms Hm) as HF.
  destruct (Parse_cases s) as [[Hnil _]|[(_ & q & Hq & H)|(_ & e & He & _)]].
  - apply match_here_shape, match_shape_length in Hm.
    rewrite <- HF, Hnil in Hm. discriminate Hm.
  - exists q. rewrite <- HF. auto.
  - rewrite HF in He. apply parse_fields_inr in He as (y & Hy & HA).
    rewrite (Hnum y Hy) in HA. discriminate.
Qed.

Lemma no_field_after_group (u u' : ascii) (g t : gostring) :
  field_text u' g -> is_digit u = false -> is_digit u' = false -> u' <> u ->
  no_field u t -> no_field u (g ++ t).
Proof.
  intros [->|(ds & [_ Hds] & ->)] Hu Hu' Hneq Ht.
  - exact Ht.
  - rewrite <- app_assoc. simpl. apply no_field_token; assumption.
Qed.

Lemma no_field_nil (u : ascii) : no_field u [].
Proof. apply no_field_not_digit. exact I. Qed.

Ltac unit_facts :=
  first [reflexivity | discriminate | assumption].

(** [Parse] of a canonical text with a repetition count: the prefix, the
    calendar components, an optional ["T"], hours and minutes, and a group
    [g9] of seconds. *)
Lemma Parse_canonical_groups (rep y m d h mi : Z) (g6 g9 : gostring) :
  0 < rep <= maxInt ->
  0 <= y <= maxInt -> 0 <= m <= maxInt -> 0 <= d <= maxInt ->
  0 <= h <= maxInt -> 0 <= mi <= maxInt ->
  (g6 = [] \/ g6 = str "T") -> field_text "S" g9 -> convertible g9 ->
  (g6 = [] -> part h "H" = [] /\ part mi "M" = [] /\ g9 = []) ->
  exists q,
    Parse (str "R" ++ Itoa rep ++ str "/" ++ str "P" ++ part y "Y"
             ++ part m "M" ++ part d "D" ++ g6 ++ part h "H" ++ part mi "M"
             ++ g9)
    = (Some q, None) /\
    Repetitions q = rep /\ Year q = y /\ Month q = m /\ Day q = d /\
    Hour q = h /\ Minute q = mi /\ Second q = stored g9 0.
Proof.
  intros Hrep Hy Hm Hd Hh Hmi H6 F9 C9 Hclock.
  pose proof (field_text_part y "Y" Hy) as F3.
  pose proof (field_text_part m "M" Hm) as F4.
  pose proof (field_text_part d "D" Hd) as F5.
  pose proof (field_text_part h "H" Hh) as F7.
  pose proof (field_text_part mi "M" Hmi) as F8.
  assert (Hrd : all_digits (Itoa rep)) by (apply Itoa_digits; lia).
  assert (Htail : forall u, is_digit u = false -> u <> "H"%char ->
            u <> "M"%char -> u <> "S"%char ->
            no_field u (g6 ++ part h "H" ++ part mi "M" ++ g9 ++ [])).
  { intros u Hu HH HM HS. destruct H6 as [E| ->].
    - destruct (Hclock E) as (-> & -> & ->). subst g6. apply no_field_nil.
    - apply no_field_not_digit. reflexivity. }
  match goal with
  | |- exists q, Parse ?w = _ /\ _ => rewrite <- (app_nil_r w)
  end.
  edestruct (Parse_of_match) as (q & HP & Hq).
  { apply (match_here_complete (str "R") (Itoa rep) (str "/")
             (part y "Y") (part m "M") (part d "D") g6
             (part h "H") (part mi "M") g9 []); auto.
    - intros _. repeat (eapply no_field_after_group; [eassumption|unit_facts..|]).
      apply Htail; unit_facts.
    - intros _. repeat (eapply no_field_after_group; [eassumption|unit_facts..|]).
      destruct H6 as [E| ->].
      + destruct (Hclock E) as (-> & -> & ->). subst g6. apply no_field_nil.
      + apply no_field_not_digit. reflexivity.
    - intros _. apply Htail; unit_facts.
    - intros E. destruct (Hclock E) as (-> & -> & ->). exact I.
    - intros _. repeat (eapply no_field_after_group; [eassumption|unit_facts..|]).
      apply no_field_nil.
    - intros _. repeat (eapply no_field_after_group; [eassumption|unit_facts..|]).
      apply no_field_nil.
    - intros _. apply no_field_nil. }
  { apply numerals_ok.
    - intros _. unfold index. cbn [nth]. rewrite Atoi_Itoa by lia. reflexivity.
    - intros i Hi. unfold index.
      repeat (destruct Hi as [<-|Hi];
              [cbn [nth]; first [apply convertible_part; assumption|exact C9]|]).
      destruct Hi. }
  exists q. split; [exact HP|].
  apply parse_fields_inl in Hq as (A & B & C & D & E & F & G & _).
  unfold index in *. cbn [nth zero_period Year Month Day Hour Minute Second] in *.
  rewrite stored_part in B, C, D, E, F by assumption.
  assert (Hn : nonempty (Itoa rep) = true).
  { destruct Hrd as [Hne _]. destruct (Itoa rep); [congruence|reflexivity]. }
  cbn [str list_ascii_of_string str_eqb Ascii.eqb Bool.eqb andb] in A.
  rewrite Hn, Atoi_Itoa in A by lia.
  repeat split; assumption.
Qed.

Lemma part_not_positive (v : Z) (u : ascii) : (0 <? v) = false -> part v u = [].
Proof. intros E. unfold part. rewrite E. reflexivity. Qed.

Lemma no_clock (p : Period) :
  any_clock p = false ->
  (0 <? Hour p) = false /\ (0 <? Minute p) = false /\ (0 <? Second p) = false.
Proof.
  unfold any_clock. intros E.
  apply orb_false_elim in E as [E Es]. apply orb_false_elim in E as [Eh Em].
  auto.
Qed.

(** [Parse] reads back what [String] writes for a period with a positive
    repetition count and components that are not negative. *)
Lemma Parse_String_positive (p : Period) :
  0 < Repetitions p <= maxInt -> natural_fields p ->
  exists q, Parse (String p) = (Some q, None) /\ same_fields q p.
Proof.
  intros Hrep (Hy & Hm & Hd & Hh & Hmi & Hs).
  rewrite String_is_canonical. unfold canonical, canonical_prefix.
  destruct (Z.eqb_spec (Repetitions p) 0) as [E0|_]; [lia|].
  destruct (Z.ltb_spec 0 (Repetitions p)) as [_|E0]; [|lia].
  destruct (any_clock p) eqn:Ec; [|destruct (any_calendar p) eqn:Ecal].
  - (* a clock component is positive *)
    destruct (Parse_canonical_groups (Repetitions p) (Year p) (Month p)
                (Day p) (Hour p) (Minute p) (str "T") (part (Second p) "S"))
      as (q & HP & A & B & C & D & E & F & G); auto.
    { apply field_text_part; assumption. }
    { apply convertible_part; assumption. }
    { discriminate. }
    exists q. split.
    + rewrite <- HP. f_equal. rewrite orb_true_r.
      repeat first [rewrite <- app_assoc | rewrite app_nil_r | progress simpl].
      reflexivity.
    + rewrite stored_part in G by assumption.
      exact (conj A (conj B (conj C (conj D (conj E (conj F G)))))).
  - (* only calendar components *)
    destruct (no_clock p Ec) as (Eh & Em & Es).
    destruct (Parse_canonical_groups (Repetitions p) (Year p) (Month p)
                (Day p) (Hour p) (Minute p) [] [])
      as (q & HP & A & B & C & D & E & F & G); auto.
    { left. reflexivity. }
    { discriminate. }
    { intros _. rewrite !part_not_positive by assumption. auto. }
    exists q. split.
    + rewrite <- HP. f_equal.
      rewrite (part_not_positive (Hour p)), (part_not_positive (Minute p))
        by assumption.
      repeat first [rewrite <- app_assoc | rewrite app_nil_r | progress simpl].
      reflexivity.
    + apply Z.ltb_ge in Es. cbn in G.
      assert (G' : Second q = Second p) by lia.
      exact (conj A (conj B (conj C (conj D (conj E (conj F G')))))).
  - (* no positive component: the zero marker *)
    destruct (no_clock p Ec) as (Eh & Em & Es).
    destruct (Parse_canonical_groups (Repetitions p) (Year p) (Month p)
                (Day p) (Hour p) (Minute p) (str "T") (str "0S"))
      as (q & HP & A & B & C & D & E & F & G); auto.
    { right. exists (str "0"). split; [split; [discriminate|reflexivity]|reflexivity]. }
    { intros _. reflexivity. }
    { discriminate. }
    exists q. split.
    + rewrite <- HP. f_equal.
      rewrite (part_not_positive (Hour p)), (part_not_positive (Minute p))
        by assumption.
      repeat first [rewrite <- app_assoc | rewrite app_nil_r | progress simpl].
      reflexivity.
    + apply Z.ltb_ge in Es. change (stored (str "0S") 0) with 0 in G.
      assert (G' : Second q = Second p) by lia.
      exact (conj A (conj B (conj C (conj D (conj E (conj F G')))))).
Qed.

(** ** Sentences of the grammar *)

(** For a sentence of the grammar the recogniser returns the sentence and
    its nine groups. *)
Lemma grammar_text_groups (g1 g2 sl g3 g4 g5 g6 g7 g8 g9 : gostring) :
  grammar_text g1 g2 sl g3 g4 g5 g6 g7 g8 g9 ->
  FindStringSubmatch (joined g1 g2 sl g3 g4 g5 g6 g7 g8 g9)
  = [joined g1 g2 sl g3 g4 g5 g6 g7 g8 g9;
     g1; g2; g3; g4; g5; g6; g7; g8; g9].
Proof.
  intros (H1 & H2 & Hsl & F3 & F4 & F5 & H6 & F7 & F8 & F9 & HT).
  assert (Htail : forall u, no_field u (g6 ++ g7 ++ g8 ++ g9 ++ [])).
  { intros u. destruct H6 as [E| ->].
    - destruct (HT E) as (-> & -> & ->). subst g6. apply no_field_nil.
    - apply no_field_not_digit. reflexivity. }
  apply Find_here. unfold joined.
  match goal with
  | |- match_here ?w = _ => rewrite <- (app_nil_r w) at 1
  end.
  apply match_here_complete; auto.
  - intros _. repeat (eapply no_field_after_group; [eassumption|unit_facts..|]).
    apply Htail.
  - intros _. repeat (eapply no_field_after_group; [eassumption|unit_facts..|]).
    apply Htail.
  - intros E. destruct (HT E) as (-> & -> & ->). exact I.
  - intros _. repeat (eapply no_field_after_group; [eassumption|unit_facts..|]).
    apply no_field_nil.
  - intros _. repeat (eapply no_field_after_group; [eassumption|unit_facts..|]).
    apply no_field_nil.
  - intros _. apply no_field_nil.
Qed.

(** [Parse] only looks at the groups 1 to 5 and 7 to 9. *)
Lemma parse_fields_ext (ms ms' : list gostring) (r : Period) :
  (forall i, In i [1; 2; 3; 4; 5; 7; 8; 9]%nat -> index ms i = index ms' i) ->
  parse_fields ms r = parse_fields ms' r.
Proof.
  intros Hext.
  unfold parse_fields, parse_repetitions, parse_calendar, parse_clock.
  rewrite !(Hext 1%nat), !(Hext 2%nat), !(Hext 3%nat), !(Hext 4%nat),
    !(Hext 5%nat), !(Hext 7%nat), !(Hext 8%nat), !(Hext 9%nat)
    by (simpl; tauto).
  reflexivity.
Qed.

(** A ["T"] that no clock field follows changes nothing. *)
Lemma lone_T_ignored (g1 g2 sl g3 g4 g5 : gostring) :
  grammar_text g1 g2 sl g3 g4 g5 [] [] [] [] ->
  Parse (joined g1 g2 sl g3 g4 g5 (str "T") [] [] [])
  = Parse (joined g1 g2 sl g3 g4 g5 [] [] [] []).
Proof.
  intros HG.
  assert (HG' : grammar_text g1 g2 sl g3 g4 g5 (str "T") [] [] []).
  { destruct HG as (H1 & H2 & Hsl & F3 & F4 & F5 & _ & F7 & F8 & F9 & _).
    repeat split; auto. }
  unfold Parse.
  rewrite (grammar_text_groups _ _ _ _ _ _ _ _ _ _ HG),
    (grammar_text_groups _ _ _ _ _ _ _ _ _ _ HG').
  cbn [length Nat.eqb].
  rewrite (parse_fields_ext
             [joined g1 g2 sl g3 g4 g5 (str "T") [] [] [];
              g1; g2; g3; g4; g5; str "T"; []; []; []]
             [joined g1 g2 sl g3 g4 g5 [] [] [] [];
              g1; g2; g3; g4; g5; []; []; []; []]); [reflexivity|].
  intros i Hi. unfold index.
  repeat (destruct Hi as [<-|Hi]; [reflexivity|]). destruct Hi.
Qed.

Lemma Parse_components_of_match (s : gostring) (p : Period) :
  Parse s = (Some p, None) ->
  let ms := FindStringSubmatch s in
  component_of "Y" (index ms 3) (Year p) /\
  component_of "M" (index ms 4) (Month p) /\
  component_of "D" (index ms 5) (Day p) /\
  component_of "H" (index ms 7) (Hour p) /\
  component_of "M" (index ms 8) (Minute p) /\
  component_of "S" (index ms 9) (Second p).
Proof.
  intros HP ms.
  pose proof (Parse_ok s p HP) as [Hne Hpf]. fold ms in Hne, Hpf.
  destruct (Find_groups s Hne) as (_ & _ & F3 & F4 & F5 & _ & F7 & F8 & F9).
  fold ms in F3, F4, F5, F7, F8, F9.
  apply parse_fields_inl in Hpf
    as (_ & -> & -> & -> & -> & -> & -> & _).
  cbn [Year Month Day Hour Minute Second zero_period].
  repeat split; apply (Parse_component s p); auto; simpl; tauto.
Qed.

Ltac literal_field ds :=
  right; exists ds;
  split; [split; [discriminate|reflexivity]|reflexivity].

(** ["R20/P1Y6M2DT2H"] is a sentence of the grammar. *)
Lemma grammar_text_example :
  grammar_text (str "R") (str "20") (str "/") (str "1Y") (str "6M")
               (str "2D") (str "T") (str "2H") [] [].
Proof.
  unfold grammar_text.
  split; [right; reflexivity|].
  split; [right; split; [discriminate|reflexivity]|].
  split; [right; reflexivity|].
  split; [literal_field (str "1")|]. split; [literal_field (str "6")|].
  split; [literal_field (str "2")|]. split; [right; reflexivity|].
  split; [literal_field (str "2")|]. split; [left; reflexivity|].
  split; [left; reflexivity|]. discriminate.
Defined.

(** C2.  For every input that [Parse] accepts, on the groups of its match:
    the match is group 1 (empty or ["R"]), group 2 (empty or digits), an
    optional ["/"] and the ["P"]; when it starts with ["R"] and no digits
    follow, [Repetitions] is [-1]; when digits follow the ["R"],
    [Repetitions] is their decimal value; when there is no leading ["R"],
    [Repetitions] is [0].  And for every sentence of the grammar that
    [Parse] accepts, the same on the sentence's own prefix. *)
Theorem Parse_repetition_prefix :
  (forall s p, Parse s = (Some p, None) ->
     let ms := FindStringSubmatch s in
     (exists sl rest, (sl = [] \/ sl = str "/") /\
        index ms 0 = index ms 1 ++ index ms 2 ++ sl ++ str "P" ++ rest) /\
     (index ms 1 = [] \/ index ms 1 = str "R") /\
     (index ms 1 = str "R" -> index ms 2 = [] -> Repetitions p = -1) /\
     (index ms 1 = str "R" -> index ms 2 <> [] ->
        all_digits (index ms 2) /\ Repetitions p = decimal_value (index ms 2)) /\
     (index ms 1 = [] -> Repetitions p = 0)) /\
  (forall g1 g2 sl g3 g4 g5 g6 g7 g8 g9 p,
     grammar_text g1 g2 sl g3 g4 g5 g6 g7 g8 g9 ->
     Parse (joined g1 g2 sl g3 g4 g5 g6 g7 g8 g9) = (Some p, None) ->
     (g1 = str "R" -> g2 = [] -> Repetitions p = -1) /\
     (g1 = str "R" -> g2 <> [] -> Repetitions p = decimal_value g2) /\
     (g1 = [] -> Repetitions p = 0)).
Proof.
  split; [exact Parse_repetitions_of_match|].
  intros g1 g2 sl g3 g4 g5 g6 g7 g8 g9 p HG HP.
  pose proof (Parse_repetitions_of_match _ p HP) as H. cbv zeta in H.
  rewrite (grammar_text_groups _ _ _ _ _ _ _ _ _ _ HG) in H.
  unfold index in H. cbn [nth] in H.
  destruct H as (_ & _ & Hr1 & Hr2 & Hr0).
  split; [exact Hr1|]. split; [|exact Hr0].
  intros E1 E2. apply (Hr2 E1 E2).
Qed.

Lemma Parse_repetition_prefix_witness :
  let p := mkPeriod 20 1 6 2 2 0 0 7200000000000 chan_nil false in
  Parse (str "R20/P1Y6M2DT2H") = (Some p, None) /\
  Repetitions p = decimal_value (str "20").
Proof.
  cbv zeta.
  assert (HP : Parse (str "R20/P1Y6M2DT2H")
               = (Some (mkPeriod 20 1 6 2 2 0 0 7200000000000 chan_nil false),
                  None)) by (vm_compute; reflexivity).
  split; [exact HP|].
  apply (proj2 Parse_repetition_prefix _ _ _ _ _ _ _ _ _ _ _
           grammar_text_example HP).
  - reflexivity.
  - discriminate.
Defined.

(** C6.  In a successfully parsed period each of the six components is the
    decimal value (non-negative) of the digits its group matched, and 0 when
    its group is empty: for every input on the groups of its match, and for
    every sentence of the grammar on the sentence's own components.  A
    ["T"] that no clock field follows is accepted: the text parses as it
    does without the ["T"].  And ["P3Y9M7DT12H30M50S"] parses to zero
    repetitions and the components 3, 9, 7, 12, 30, 50. *)
Theorem Parse_components :
  (forall s p, Parse s = (Some p, None) ->
     let ms := FindStringSubmatch s in
     component_of "Y" (index ms 3) (Year p) /\
     component_of "M" (index ms 4) (Month p) /\
     component_of "D" (index ms 5) (Day p) /\
     component_of "H" (index ms 7) (Hour p) /\
     component_of "M" (index ms 8) (Minute p) /\
     component_of "S" (index ms 9) (Second p)) /\
  (forall g1 g2 sl g3 g4 g5 g6 g7 g8 g9 p,
     grammar_text g1 g2 sl g3 g4 g5 g6 g7 g8 g9 ->
     Parse (joined g1 g2 sl g3 g4 g5 g6 g7 g8 g9) = (Some p, None) ->
     component_of "Y" g3 (Year p) /\ component_of "M" g4 (Month p) /\
     component_of "D" g5 (Day p) /\ component_of "H" g7 (Hour p) /\
     component_of "M" g8 (Minute p) /\ component_of "S" g9 (Second p)) /\
  (forall g1 g2 sl g3 g4 g5,
     grammar_text g1 g2 sl g3 g4 g5 [] [] [] [] ->
     Parse (joined g1 g2 sl g3 g4 g5 (str "T") [] [] [])
     = Parse (joined g1 g2 sl g3 g4 g5 [] [] [] [])) /\
  Parse (str "PT") = (Some zero_period, None) /\
  Parse (str "P3Y9M7DT12H30M50S")
  = (Some (mkPeriod 0 3 9 7 12 30 50 45050000000000 chan_nil false), None).
Proof.
  split; [exact Parse_components_of_match|].
  split; [|split; [exact lone_T_ignored|split; vm_compute; reflexivity]].
  intros g1 g2 sl g3 g4 g5 g6 g7 g8 g9 p HG HP.
  pose proof (Parse_components_of_match _ p HP) as H. cbv zeta in H.
  rewrite (grammar_text_groups _ _ _ _ _ _ _ _ _ _ HG) in H.
  exact H.
Qed.

Lemma Parse_components_witness :
  let p := mkPeriod 20 1 6 2 2 0 0 7200000000000 chan_nil false in
  Parse (str "R20/P1Y6M2DT2H") = (Some p, None) /\
  component_of "H" (str "2H") (Hour p) /\
  component_of "M" [] (Minute p).
Proof.
  cbv zeta.
  assert (HP : Parse (str "R20/P1Y6M2DT2H")
               = (Some (mkPeriod 20 1 6 2 2 0 0 7200000000000 chan_nil false),
                  None)) by (vm_compute; reflexivity).
  split; [exact HP|].
  destruct (proj1 (proj2 Parse_components) _ _ _ _ _ _ _ _ _ _ _
              grammar_text_example HP) as (_ & _ & _ & HH & HM & _).
  split; assumption.
Defined.

(** ** Parse after String *)

(** C1, at [Repetitions = 0].  [String] writes a period of zero repetitions
    and one year as ["R/P1Y"], and [Parse] reads that text as the endless
    repetition [-1]: the repetition count does not survive the round trip
    (every other field does). *)
Theorem Parse_String_zero_repetitions :
  let p := New tt 0 1 0 0 0 0 0 in
  let q := mkPeriod (-1) 1 0 0 0 0 0 0 chan_nil false in
  Repetitions p = 0 /\
  String p = str "R/P1Y" /\
  Parse (String p) = (Some q, None) /\
  Repetitions q <> Repetitions p /\
  ~ same_fields q p.
Proof.
  cbv zeta. split; [reflexivity|]. split; [vm_compute; reflexivity|].
  split; [vm_compute; reflexivity|]. split; [vm_compute; discriminate|].
  intros (Hr & _). vm_compute in Hr. discriminate.
Qed.

(** * Further properties *)

(** ** The recogniser on arbitrary text *)

(** The match [FindStringSubmatch] returns is the one at the first position
    that has one. *)
Lemma Find_leftmost (s : gostring) :
  FindStringSubmatch s = [] \/
  exists pre s0,
    s = pre ++ s0 /\ match_here s0 = Some (FindStringSubmatch s) /\
    forall pre' s0', s = pre' ++ s0' -> (length pre' < length pre)%nat ->
                     match_here s0' = None.
Proof.
  induction s as [|x s IH]; [left; reflexivity|].
  change (FindStringSubmatch (x :: s))
    with (match match_here (x :: s) with
          | Some c => c
          | None => FindStringSubmatch s
          end).
  destruct (match_here (x :: s)) as [ms|] eqn:E.
  - right. exists [], (x :: s). repeat split; auto.
    intros pre' s0' _ Hlt. simpl in Hlt. lia.
  - destruct IH as [Hnil|(pre & s0 & Hs & Hm & Hleft)]; [left; exact Hnil|].
    right. exists (x :: pre), s0. split; [rewrite Hs; reflexivity|].
    split; [exact Hm|].
    intros pre' s0' Hs' Hlt. destruct pre' as [|y pre'].
    + simpl in Hs'. subst s0'. exact E.
    + simpl in Hs', Hlt. inversion Hs'; subst y.
      apply (Hleft pre' s0'); [assumption|lia].
Qed.

(** X1.  What [compiler.FindStringSubmatch] answers on any text: [nil], or
    ten strings for a match that starts at the first position where the
    pattern matches at all; the text is what precedes the match, the match,
    and a rest; the match is the nine groups in order around the ["P"], each
    group empty or well-formed. *)
Theorem match_leftmost_and_shaped (s : gostring) :
  FindStringSubmatch s = [] \/
  exists pre s0,
    s = pre ++ s0 /\ match_shape s0 (FindStringSubmatch s) /\
    length (FindStringSubmatch s) = 10%nat /\
    forall pre' s0', s = pre' ++ s0' -> (length pre' < length pre)%nat ->
                     match_here s0' = None.
Proof.
  destruct (Find_leftmost s) as [Hnil|(pre & s0 & Hs & Hm & Hleft)];
    [left; exact Hnil|right].
  exists pre, s0. apply match_here_shape in Hm.
  repeat split; auto. apply (match_shape_length _ _ Hm).
Qed.

(** A sentence of the grammar followed by more text. *)
Lemma sentence_prefix_groups (g1 g2 sl g3 g4 g5 g6 g7 g8 g9 rest : gostring) :
  grammar_text g1 g2 sl g3 g4 g5 g6 g7 g8 g9 ->
  not_digit_head rest -> not_head "T" rest ->
  FindStringSubmatch (joined g1 g2 sl g3 g4 g5 g6 g7 g8 g9 ++ rest)
  = [joined g1 g2 sl g3 g4 g5 g6 g7 g8 g9;
     g1; g2; g3; g4; g5; g6; g7; g8; g9].
Proof.
  intros (H1 & H2 & Hsl & F3 & F4 & F5 & H6 & F7 & F8 & F9 & HT) Hd HnT.
  assert (Hrest : forall u, no_field u rest)
    by (intros u; apply no_field_not_digit, Hd).
  assert (Htail : forall u, no_field u (g6 ++ g7 ++ g8 ++ g9 ++ rest)).
  { intros u. destruct H6 as [E| ->].
    - destruct (HT E) as (-> & -> & ->). subst g6. apply Hrest.
    - apply no_field_not_digit. reflexivity. }
  apply Find_here. unfold joined.
  apply match_here_complete; auto.
  - intros _. repeat (eapply no_field_after_group; [eassumption|unit_facts..|]).
    apply Htail.
  - intros _. repeat (eapply no_field_after_group; [eassumption|unit_facts..|]).
    apply Htail.
  - intros E. destruct (HT E) as (-> & -> & ->). exact HnT.
  - intros _. repeat (eapply no_field_after_group; [eassumption|unit_facts..|]).
    apply Hrest.
  - intros _. repeat (eapply no_field_after_group; [eassumption|unit_facts..|]).
    apply Hrest.
Qed.

(** X2.  Text after a sentence of the grammar is ignored, as long as it
    does not start with a digit or a ["T"]: the recogniser returns the
    sentence and its nine groups, and [Parse] answers as on the sentence
    alone. *)
Theorem trailing_text_ignored
        (g1 g2 sl g3 g4 g5 g6 g7 g8 g9 rest : gostring) :
  grammar_text g1 g2 sl g3 g4 g5 g6 g7 g8 g9 ->
  not_digit_head rest -> not_head "T" rest ->
  FindStringSubmatch (joined g1 g2 sl g3 g4 g5 g6 g7 g8 g9 ++ rest)
  = [joined g1 g2 sl g3 g4 g5 g6 g7 g8 g9;
     g1; g2; g3; g4; g5; g6; g7; g8; g9] /\
  Parse (joined g1 g2 sl g3 g4 g5 g6 g7 g8 g9 ++ rest)
  = Parse (joined g1 g2 sl g3 g4 g5 g6 g7 g8 g9).
Proof.
  intros HG Hd HnT.
  pose proof (sentence_prefix_groups _ _ _ _ _ _ _ _ _ _ rest HG Hd HnT) as E.
  split; [exact E|].
  unfold Parse. rewrite E, (grammar_text_groups _ _ _ _ _ _ _ _ _ _ HG).
  reflexivity.
Qed.

Lemma trailing_text_ignored_witness :
  Parse (str "R20/P1Y6M2DT2H, then rest") = Parse (str "R20/P1Y6M2DT2H").
Proof.
  apply (trailing_text_ignored (str "R") (str "20") (str "/") (str "1Y")
           (str "6M") (str "2D") (str "T") (str "2H") [] []
           (str ", then rest") grammar_text_example).
  - reflexivity.
  - simpl. discriminate.
Defined.

Lemma match_here_starter (c : ascii) (t : gostring) (ms : list gostring) :
  match_here (c :: t) = Some ms -> starter c = true.
Proof.
  intros Hm. apply match_here_shape in Hm
    as (g1 & g2 & sl & g3 & g4 & g5 & g6 & g7 & g8 & g9 & rest & _ & Hs
        & H1 & H2 & Hsl & _).
  unfold starter.
  destruct H1 as [->| ->]; [|simpl in Hs; inversion Hs; reflexivity].
  destruct H2 as [->|[Hne Hds]].
  - destruct Hsl as [->| ->]; simpl in Hs; inversion Hs; reflexivity.
  - destruct g2 as [|d g2]; [congruence|]. simpl in Hs, Hds.
    inversion Hs; subst d. apply andb_true_iff in Hds as [-> _]. reflexivity.
Qed.

(** X3.  Text before the match is skipped: bytes that cannot start a match
    (no digit, ["R"], ["/"] or ["P"]) in front of a text change neither
    what the recogniser returns nor what [Parse] answers. *)
Theorem leading_text_skipped (pre s : gostring) :
  (forall c, In c pre -> starter c = false) ->
  FindStringSubmatch (pre ++ s) = FindStringSubmatch s /\
  Parse (pre ++ s) = Parse s.
Proof.
  intros Hpre.
  assert (E : FindStringSubmatch (pre ++ s) = FindStringSubmatch s).
  { induction pre as [|c pre IH]; [reflexivity|].
    change (FindStringSubmatch ((c :: pre) ++ s))
      with (match match_here (c :: pre ++ s) with
            | Some m => m
            | None => FindStringSubmatch (pre ++ s)
            end).
    destruct (match_here (c :: pre ++ s)) as [ms|] eqn:Em.
    - apply match_here_starter in Em.
      rewrite (Hpre c) in Em; [discriminate|left; reflexivity].
    - apply IH. intros c' Hc'. apply Hpre. right. exact Hc'. }
  split; [exact E|]. unfold Parse. rewrite E. reflexivity.
Qed.

Lemma leading_text_skipped_witness :
  Parse (str "every P1M") = Parse (str "P1M").
Proof.
  apply (leading_text_skipped (str "every ") (str "P1M")).
  intros c Hc. simpl in Hc.
  repeat (destruct Hc as [<-|Hc]; [reflexivity|]). destruct Hc.
Defined.

(** ** What Parse returns *)

Lemma component_of_range (u : ascii) (g : gostring) (v : Z) :
  component_of u g v -> 0 <= v <= maxInt.
Proof.
  intros [[_ ->]|(ds & _ & _ & _ & Hr)]; [unfold maxInt; lia|exact Hr].
Qed.

(** X4.  Every period [Parse] returns has six components between 0 and the
    largest [int], a repetition count between -1 and the largest [int], a
    cached duration that is an [int64], no [done] channel and the [running]
    flag down.  [Parse] never returns a negative component. *)
Theorem Parse_result_ranges (s : gostring) (p : Period) :
  Parse s = (Some p, None) ->
  -1 <= Repetitions p <= maxInt /\ natural_fields p /\ in_int (time p) /\
  done p = chan_nil /\ running p = false.
Proof.
  intros HP.
  pose proof (Parse_components_of_match s p HP) as HC. cbv zeta in HC.
  destruct HC as (CY & CM & CD & CH & CMi & CS).
  pose proof (Parse_time s p HP) as Ht.
  pose proof (Parse_ok s p HP) as [Hne Hpf].
  pose proof (parse_fields_inl _ _ _ Hpf)
    as (HR & _ & _ & _ & _ & _ & _ & _ & Hd & Hr & HA).
  split; [|split; [|split; [|split; [exact Hd|exact Hr]]]].
  - rewrite HR.
    destruct (str_eqb (index (FindStringSubmatch s) 1) (str "R")) eqn:E1;
      [|cbn; unfold maxInt; lia].
    destruct (nonempty (index (FindStringSubmatch s) 2)) eqn:E2;
      [|unfold maxInt; lia].
    destruct (Find_groups s Hne) as (_ & G2 & _). cbv zeta in G2.
    destruct G2 as [G2|G2]; [rewrite G2 in E2; discriminate|].
    assert (HA2 : snd (Atoi (index (FindStringSubmatch s) 2)) = None).
    { apply HA. unfold numerals. rewrite E1, E2. simpl. auto. }
    destruct (Atoi (index (FindStringSubmatch s) 2)) as [v e] eqn:EA.
    simpl in HA2. subst e.
    apply (Atoi_digits_ok _ v G2) in EA as [_ Hv]. simpl. lia.
  - unfold natural_fields.
    repeat split; eapply component_of_range; eassumption.
  - rewrite Ht. apply wrap64_range.
Qed.

Lemma Parse_result_ranges_witness :
  natural_fields (mkPeriod 20 1 6 2 2 0 0 7200000000000 chan_nil false).
Proof.
  apply (Parse_result_ranges (str "R20/P1Y6M2DT2H")
           (mkPeriod 20 1 6 2 2 0 0 7200000000000 chan_nil false)).
  vm_compute. reflexivity.
Defined.

(** Without a leading ["R"], [Parse] does not look at group 2. *)
Lemma parse_fields_no_R (ms ms' : list gostring) (r : Period) :
  index ms 1 = [] -> index ms' 1 = [] ->
  (forall i, In i [3; 4; 5; 7; 8; 9]%nat -> index ms i = index ms' i) ->
  parse_fields ms r = parse_fields ms' r.
Proof.
  intros E1 E1' Hext.
  unfold parse_fields, parse_repetitions, parse_calendar, parse_clock.
  rewrite E1, E1'.
  rewrite !(Hext 3%nat), !(Hext 4%nat), !(Hext 5%nat), !(Hext 7%nat),
    !(Hext 8%nat), !(Hext 9%nat) by (simpl; tauto).
  reflexivity.
Qed.

(** X5.  A repetition count that no ["R"] precedes is dropped without being
    converted: a sentence that starts with digits or a ["/"] parses exactly
    as the sentence from its ["P"] on, and with zero repetitions when it
    parses. *)
Theorem count_without_R_dropped (g2 sl g3 g4 g5 g6 g7 g8 g9 : gostring) :
  grammar_text [] g2 sl g3 g4 g5 g6 g7 g8 g9 ->
  Parse (joined [] g2 sl g3 g4 g5 g6 g7 g8 g9)
  = Parse (joined [] [] [] g3 g4 g5 g6 g7 g8 g9) /\
  forall p, Parse (joined [] g2 sl g3 g4 g5 g6 g7 g8 g9) = (Some p, None) ->
            Repetitions p = 0.
Proof.
  intros HG.
  assert (HG' : grammar_text [] [] [] g3 g4 g5 g6 g7 g8 g9).
  { destruct HG as (H1 & H2 & Hsl & F3 & F4 & F5 & H6 & F7 & F8 & F9 & HT).
    unfold grammar_text. tauto. }
  pose proof (grammar_text_groups _ _ _ _ _ _ _ _ _ _ HG) as E.
  pose proof (grammar_text_groups _ _ _ _ _ _ _ _ _ _ HG') as E'.
  split.
  - unfold Parse. rewrite E, E'. cbn [length Nat.eqb].
    rewrite (parse_fields_no_R
               [joined [] g2 sl g3 g4 g5 g6 g7 g8 g9;
                []; g2; g3; g4; g5; g6; g7; g8; g9]
               [joined [] [] [] g3 g4 g5 g6 g7 g8 g9;
                []; []; g3; g4; g5; g6; g7; g8; g9]);
      [reflexivity|reflexivity|reflexivity|].
    intros i Hi. unfold index.
    repeat (destruct Hi as [<-|Hi]; [reflexivity|]). destruct Hi.
  - intros p HP. apply Parse_ok in HP as [_ HP]. rewrite E in HP.
    apply parse_fields_inl in HP as (HR & _). rewrite HR. reflexivity.
Qed.

Lemma count_without_R_dropped_witness :
  Parse (str "99999999999999999999/P1Y") = Parse (str "P1Y").
Proof.
  apply (count_without_R_dropped (str "99999999999999999999") (str "/")
           (str "1Y") [] [] [] [] [] []).
  unfold grammar_text.
  split; [left; reflexivity|].
  split; [right; split; [discriminate|reflexivity]|].
  split; [right; reflexivity|].
  split; [literal_field (str "1")|].
  repeat (split; [left; reflexivity|]). auto.
Defined.

(** ** Parse after String, for every repetition count *)

(** [Parse] of a sentence of the grammar whose numerals convert. *)
Lemma Parse_sentence (g1 g2 sl g3 g4 g5 g6 g7 g8 g9 : gostring) :
  grammar_text g1 g2 sl g3 g4 g5 g6 g7 g8 g9 ->
  (nonempty g2 = true -> snd (Atoi g2) = None) ->
  convertible g3 -> convertible g4 -> convertible g5 ->
  convertible g7 -> convertible g8 -> convertible g9 ->
  exists q,
    Parse (joined g1 g2 sl g3 g4 g5 g6 g7 g8 g9) = (Some q, None) /\
    Repetitions q
    = (if str_eqb g1 (str "R")
       then if nonempty g2 then fst (Atoi g2) else -1 else 0) /\
    Year q = stored g3 0 /\ Month q = stored g4 0 /\ Day q = stored g5 0 /\
    Hour q = stored g7 0 /\ Minute q = stored g8 0 /\ Second q = stored g9 0.
Proof.
  intros HG C2 C3 C4 C5 C7 C8 C9.
  pose proof (grammar_text_groups _ _ _ _ _ _ _ _ _ _ HG) as E.
  set (ms := [joined g1 g2 sl g3 g4 g5 g6 g7 g8 g9;
              g1; g2; g3; g4; g5; g6; g7; g8; g9]) in *.
  assert (Hnum : forall x, In x (numerals ms) -> snd (Atoi x) = None).
  { apply numerals_ok; [exact C2|].
    intros i Hi. unfold index, ms.
    repeat (destruct Hi as [<-|Hi]; [cbn [nth]; assumption|]). destruct Hi. }
  destruct (Parse_cases (joined g1 g2 sl g3 g4 g5 g6 g7 g8 g9))
    as [[Hnil _]|[(_ & q & Hq & H)|(_ & e & He & _)]].
  - rewrite E in Hnil. discriminate Hnil.
  - exists q. split; [exact H|]. rewrite E in Hq.
    apply parse_fields_inl in Hq as (A & B & C & D & F & G & I & _).
    unfold index, ms in *. cbn [nth] in *.
    cbn [zero_period Repetitions Year Month Day Hour Minute Second] in *.
    auto 10.
  - rewrite E in He. apply parse_fields_inr in He as (y & Hy & HA).
    rewrite (Hnum y Hy) in HA. discriminate.
Qed.

(** The prefix [String] writes, as groups 1 and 2 and the separator. *)
Lemma canonical_prefix_groups (p : Period) :
  Repetitions p <= maxInt ->
  exists g1 g2 sl,
    canonical_prefix p = g1 ++ g2 ++ sl /\
    (g1 = [] \/ g1 = str "R") /\ (g2 = [] \/ all_digits g2) /\
    (sl = [] \/ sl = str "/") /\
    (nonempty g2 = true -> snd (Atoi g2) = None) /\
    (if str_eqb g1 (str "R")
     then if nonempty g2 then fst (Atoi g2) else -1 else 0)
    = reread_repetitions (Repetitions p).
Proof.
  intros Hmax. unfold canonical_prefix, reread_repetitions.
  destruct (Z.eqb_spec (Repetitions p) 0) as [E0|E0].
  - exists (str "R"), [], (str "/"). repeat split; auto. discriminate.
  - destruct (Z.ltb_spec 0 (Repetitions p)) as [Hpos|Hneg].
    + destruct (Itoa_digits (Repetitions p)) as [Hd _]; [lia|].
      assert (Hn : nonempty (Itoa (Repetitions p)) = true).
      { destruct Hd as [Hne _].
        destruct (Itoa (Repetitions p)); [congruence|reflexivity]. }
      exists (str "R"), (Itoa (Repetitions p)), (str "/").
      split; [reflexivity|]. split; [right; reflexivity|].
      split; [right; exact Hd|]. split; [right; reflexivity|].
      split; [intros _; rewrite Atoi_Itoa by lia; reflexivity|].
      cbn [str list_ascii_of_string str_eqb Ascii.eqb Bool.eqb andb].
      rewrite Hn, Atoi_Itoa by lia. reflexivity.
    + exists [], [], []. repeat split; auto. discriminate.
Qed.

(** The clock part and the zero marker [String] writes, as group 6, the
    hours and minutes, and a group of seconds. *)
Lemma canonical_clock_groups (p : Period) :
  natural_fields p ->
  exists g6 g9,
    (if any_clock p
     then str "T" ++ part (Hour p) "H" ++ part (Minute p) "M"
                  ++ part (Second p) "S"
     else [])
    ++ (if any_calendar p || any_clock p then [] else str "T0S")
    = g6 ++ part (Hour p) "H" ++ part (Minute p) "M" ++ g9 /\
    (g6 = [] \/ g6 = str "T") /\ field_text "S" g9 /\ convertible g9 /\
    (g6 = [] -> part (Hour p) "H" = [] /\ part (Minute p) "M" = [] /\ g9 = [])
    /\ stored g9 0 = Second p.
Proof.
  intros (Hy & Hm & Hd & Hh & Hmi & Hs).
  destruct (any_clock p) eqn:Ec; [|destruct (any_calendar p) eqn:Ecal].
  - exists (str "T"), (part (Second p) "S"). rewrite orb_true_r.
    split; [repeat first [rewrite <- app_assoc | rewrite app_nil_r
                         | progress simpl]; reflexivity|].
    split; [right; reflexivity|].
    split; [apply field_text_part; assumption|].
    split; [apply convertible_part; assumption|].
    split; [discriminate|apply stored_part; assumption].
  - destruct (no_clock p Ec) as (Eh & Em & Es).
    exists [], []. rewrite !part_not_positive by assumption.
    split; [reflexivity|]. split; [left; reflexivity|].
    split; [left; reflexivity|]. split; [discriminate|].
    split; [auto|]. apply Z.ltb_ge in Es. cbn. lia.
  - destruct (no_clock p Ec) as (Eh & Em & Es).
    exists (str "T"), (str "0S"). rewrite !part_not_positive by assumption.
    split; [reflexivity|]. split; [right; reflexivity|].
    split; [literal_field (str "0")|]. split; [intros _; reflexivity|].
    split; [discriminate|]. apply Z.ltb_ge in Es.
    change (stored (str "0S") 0) with 0. lia.
Qed.

(** What [Parse] makes of what [String] writes. *)
Lemma Parse_String_reread (p : Period) :
  natural_fields p -> Repetitions p <= maxInt ->
  exists q,
    Parse (String p) = (Some q, None) /\
    Repetitions q = reread_repetitions (Repetitions p) /\
    Year q = Year p /\ Month q = Month p /\ Day q = Day p /\
    Hour q = Hour p /\ Minute q = Minute p /\ Second q = Second p.
Proof.
  intros Hnat Hmax.
  destruct (canonical_prefix_groups p Hmax)
    as (g1 & g2 & sl & Epre & H1 & H2 & Hsl & C2 & HR).
  destruct (canonical_clock_groups p Hnat)
    as (g6 & g9 & Eclk & H6 & F9 & C9 & HT & HS).
  destruct Hnat as (Hy & Hm & Hd & Hh & Hmi & Hs).
  destruct (Parse_sentence g1 g2 sl (part (Year p) "Y") (part (Month p) "M")
              (part (Day p) "D") g6 (part (Hour p) "H")
              (part (Minute p) "M") g9)
    as (q & HP & A & B & C & D & E & F & G);
    try (apply convertible_part; assumption); try assumption.
  { unfold grammar_text.
    repeat (split; [first [assumption | apply field_text_part; assumption]|]).
    exact HT. }
  exists q. split.
  - rewrite String_is_canonical, <- HP. f_equal.
    unfold canonical, joined. rewrite Epre.
    repeat rewrite <- app_assoc. do 6 f_equal.
    rewrite <- Eclk. reflexivity.
  - rewrite stored_part in B, C, D, E, F by assumption.
    rewrite A, HR, G, HS. auto 10.
Qed.

(** X6.  For every period with components that are not negative, [Parse]
    accepts what [String] writes and returns the six components unchanged;
    the repetition count comes back unchanged when it is positive, as [-1]
    when it was [0], and as [0] when it was negative. *)
Theorem Parse_String_rereads (p : Period) :
  natural_fields p -> Repetitions p <= maxInt ->
  exists q,
    Parse (String p) = (Some q, None) /\
    Repetitions q = reread_repetitions (Repetitions p) /\
    Year q = Year p /\ Month q = Month p /\ Day q = Day p /\
    Hour q = Hour p /\ Minute q = Minute p /\ Second q = Second p.
Proof. exact (Parse_String_reread p). Qed.

Lemma Parse_String_rereads_witness :
  exists q,
    Parse (String (New tt (-1) 0 0 0 0 1 0)) = (Some q, None) /\
    Repetitions q = 0 /\ Minute q = 1.
Proof.
  destruct (Parse_String_rereads (New tt (-1) 0 0 0 0 1 0))
    as (q & HP & HR & _ & _ & _ & _ & HM & _).
  - unfold natural_fields, maxInt. cbn. lia.
  - unfold maxInt. cbn. lia.
  - exists q. auto.
Defined.

Lemma reread_twice_prefix (p q : Period) :
  Repetitions q = reread_repetitions (reread_repetitions (Repetitions p)) ->
  canonical_prefix q = canonical_prefix p.
Proof.
  unfold canonical_prefix, reread_repetitions. intros ->.
  destruct (Repetitions p =? 0) eqn:E0; [reflexivity|].
  destruct (0 <? Repetitions p) eqn:E1.
  - repeat (progress (cbv beta iota; rewrite ?E0, ?E1)). reflexivity.
  - reflexivity.
Qed.

(** The text depends on the components and on the prefix only. *)
Lemma canonical_by_fields (p q : Period) :
  canonical_prefix q = canonical_prefix p ->
  Year q = Year p -> Month q = Month p -> Day q = Day p ->
  Hour q = Hour p -> Minute q = Minute p -> Second q = Second p ->
  canonical q = canonical p.
Proof.
  intros Epre Ey Em Ed Eh Emi Es.
  unfold canonical, any_clock, any_calendar.
  rewrite Epre, Ey, Em, Ed, Eh, Emi, Es. reflexivity.
Qed.

Lemma canonical_head (p : Period) :
  hd_error (canonical p)
  = if Repetitions p =? 0 then Some "R"%char
    else if 0 <? Repetitions p then Some "R"%char else Some "P"%char.
Proof.
  unfold canonical, canonical_prefix.
  destruct (Repetitions p =? 0); [reflexivity|].
  destruct (0 <? Repetitions p); reflexivity.
Qed.

(** X7.  Writing and reading twice comes back to the same text: for every
    period with components that are not negative, [String] of the second
    re-read period is the text of the first.  After one round the text is
    the same when the repetition count is positive, and a different one
    otherwise (["R/..."] and ["P..."] alternate). *)
Theorem String_Parse_twice (p : Period) :
  natural_fields p -> Repetitions p <= maxInt ->
  exists q q',
    Parse (String p) = (Some q, None) /\
    Parse (String q) = (Some q', None) /\
    String q' = String p /\
    (0 < Repetitions p -> String q = String p) /\
    (Repetitions p <= 0 -> String q <> String p).
Proof.
  intros Hnat Hmax.
  destruct (Parse_String_reread p Hnat Hmax)
    as (q & HP & HR & Ey & Em & Ed & Eh & Emi & Es).
  assert (Hnatq : natural_fields q).
  { unfold natural_fields in *. rewrite Ey, Em, Ed, Eh, Emi, Es. exact Hnat. }
  assert (Hmaxq : Repetitions q <= maxInt).
  { rewrite HR. unfold reread_repetitions, maxInt in *.
    destruct (Repetitions p =? 0); [lia|].
    destruct (0 <? Repetitions p); lia. }
  destruct (Parse_String_reread q Hnatq Hmaxq)
    as (q' & HP' & HR' & Ey' & Em' & Ed' & Eh' & Emi' & Es').
  exists q, q'. split; [exact HP|]. split; [exact HP'|].
  rewrite !String_is_canonical. split; [|split].
  - apply canonical_by_fields; try congruence.
    apply reread_twice_prefix. rewrite HR', HR. reflexivity.
  - intros Hpos. apply canonical_by_fields; try assumption.
    unfold canonical_prefix. rewrite HR. unfold reread_repetitions.
    assert (E0 : (Repetitions p =? 0) = false) by (apply Z.eqb_neq; lia).
    assert (E1 : (0 <? Repetitions p) = true) by (apply Z.ltb_lt; lia).
    repeat (progress (cbv beta iota; rewrite ?E0, ?E1)). reflexivity.
  - intros Hle Heq. apply (f_equal (@hd_error ascii)) in Heq.
    rewrite !canonical_head, HR in Heq. unfold reread_repetitions in Heq.
    destruct (Repetitions p =? 0) eqn:E0; [discriminate Heq|].
    assert (E1 : (0 <? Repetitions p) = false) by (apply Z.ltb_ge; lia).
    rewrite E1 in Heq. discriminate Heq.
Qed.

Lemma String_Parse_twice_witness :
  exists q q',
    Parse (String (New tt 0 1 0 0 0 0 0)) = (Some q, None) /\
    Parse (String q) = (Some q', None) /\
    String q' = String (New tt 0 1 0 0 0 0 0).
Proof.
  destruct (String_Parse_twice (New tt 0 1 0 0 0 0 0))
    as (q & q' & H1 & H2 & H3 & _).
  - unfold natural_fields, maxInt. cbn. lia.
  - unfold maxInt. cbn. lia.
  - exists q, q'. auto.
Defined.

(** X8.  Whatever the period, also with negative components, the text
    [String] writes contains a ["P"], and [Parse] never answers it with the
    invalid-format error. *)
Theorem String_never_invalid_format (p : Period) :
  In "P"%char (String p) /\ Parse (String p) <> (None, Some invalid_format).
Proof.
  assert (HP : In "P"%char (String p)).
  { rewrite String_is_canonical. unfold canonical.
    apply in_or_app. right. simpl. auto. }
  split; [exact HP|]. intros HE.
  destruct (Parse_cases (String p))
    as [[Hnil _]|[(_ & q & _ & H)|(_ & e & He & H)]].
  - apply Find_nil_iff in Hnil. contradiction.
  - rewrite H in HE. discriminate.
  - rewrite H in HE. apply parse_fields_inr in He as (y & _ & HA).
    destruct (Atoi_error y e HA) as [k ->]. discriminate.
Qed.

(** ** Next, New and the test oracle *)

(** X9.  [Next] recomputes the clock duration instead of reading the cached
    one, and the two agree, overflow included: for a period built by [New]
    or returned by [Parse], with repetitions left, [Next] adds exactly the
    cached [time] after the calendar step. *)
Theorem Next_adds_cached_duration `{Clock} (p : Period) (t : Time) :
  produced p -> Repetitions p <> 0 ->
  Next p t = (p, Add (AddDate t (Year p) (Month p) (Day p)) (time p)).
Proof.
  intros Hp Hr.
  assert (Ht : time p = wrap64 (clock_ns (Hour p) (Minute p) (Second p))).
  { destruct Hp as [(T & now & rep & y & mo & d & h & mi & s & ->)|[text HP]].
    - apply New_time.
    - apply (Parse_time text p HP). }
  unfold Next. destruct (Repetitions p =? 0) eqn:E0.
  - apply Z.eqb_eq in E0. contradiction.
  - rewrite clock_sum_flipped, Ht. reflexivity.
Qed.

Lemma Next_adds_cached_duration_witness :
  exists p,
    Parse (str "R/PT3000000H") = (Some p, None) /\
    @Next recording_clock p (instant 0)
    = (p, add_duration (add_date (instant 0) 0 0 0) (time p)).
Proof.
  exists (mkPeriod (-1) 0 0 0 3000000 0 0 (-7646744073709551616) chan_nil false).
  assert (HP : Parse (str "R/PT3000000H")
               = (Some (mkPeriod (-1) 0 0 0 3000000 0 0
                          (-7646744073709551616) chan_nil false), None))
    by (vm_compute; reflexivity).
  split; [exact HP|].
  apply (@Next_adds_cached_duration recording_clock).
  - right. exists (str "R/PT3000000H"). exact HP.
  - discriminate.
Defined.

(** X10.  The oracle of the package's test holds for every input: [Next]
    of a period built by [New], at any reference time, is the zero time
    when the repetition count is 0 and [calcTime] of the components
    otherwise; the [now] given to [New] plays no part. *)
Theorem Next_New_is_calcTime `{Clock} (T : Type) (x : T) (t : Time)
        (rep y mo d h mi s : Z) :
  snd (Next (New x rep y mo d h mi s) t)
  = if rep =? 0 then zeroTime else calcTime t y mo d h mi s.
Proof.
  unfold Next, New, calcTime. cbn [Repetitions Year Month Day Hour Minute Second].
  destruct (rep =? 0); [reflexivity|]. cbn [snd].
  unfold Duration.mul.
  rewrite (Z.mul_comm Duration.Hour), (Z.mul_comm Duration.Minute),
    (Z.mul_comm Duration.Second). reflexivity.
Qed.

(** ** The test's error check *)

(** X11.  [checkError] answers [nil] exactly when the two errors agree:
    both are [nil], or neither is and they have the same text.  Applied as
    the test applies it to an expected [nil] and the error of [Parse], it
    answers [nil] exactly when [Parse] returned a period. *)
Theorem checkError_nil_iff (Quote : gostring -> gostring) :
  (forall should is_,
     checkError Quote should is_ = None <->
     (should = None /\ is_ = None) \/
     (exists a b, should = Some a /\ is_ = Some b /\
                  Error Quote a = Error Quote b)) /\
  (forall s,
     checkError Quote None (snd (Parse s)) = None <->
     exists p, Parse s = (Some p, None)).
Proof.
  split.
  - intros [a|] [b|]; simpl.
    + destruct (str_eqb (Error Quote a) (Error Quote b)) eqn:E; simpl.
      * apply str_eqb_eq in E. split; [intros _; right; eauto|reflexivity].
      * split; [discriminate|].
        intros [[H _]|(a' & b' & Ha & Hb & HE)]; [discriminate|].
        inversion Ha; inversion Hb; subst.
        apply str_eqb_eq in HE. congruence.
    + split; [discriminate|].
      intros [[H _]|(a' & b' & _ & Hb & _)]; discriminate.
    + split; [discriminate|].
      intros [[_ H]|(a' & b' & Ha & _ & _)]; discriminate.
    + split; [auto|reflexivity].
  - intros s.
    destruct (Parse_cases s) as [[_ H]|[(_ & p & _ & H)|(_ & e & _ & H)]];
      rewrite H; simpl.
    + split; [discriminate|intros [p Hp]; discriminate].
    + split; [eauto|reflexivity].
    + split; [discriminate|intros [p Hp]; discriminate].
Qed.

(** ** More on Start and Stop *)

Section StreamFacts.
Context `{Clock}.




Lemma run_cons (e : event) (evs : list event) (st : stream) :
  run (e :: evs) st = run evs (react st e).
Proof. reflexivity. Qed.

Lemma run_app (a b : list event) (st : stream) :
  run (a ++ b) st = run b (run a st).
Proof. unfold run. apply fold_left_app. Qed.

(** A run of ticks on a positive countdown: the values received during the
    first [amount] ticks are emitted; short of [amount] ticks the loop goes
    on, from [amount] ticks on the stream is closed, and the senders still
    blocked on [r.done] have panicked. *)
Lemma ticks_run (ticks : list event) :
  Forall (fun e => is_tick e = true) ticks ->
  forall st, at_phase st = Looping -> crashed st = false ->
    0 < amount st -> running (period st) = true ->
    emitted (run ticks st)
    = emitted st ++ received (firstn (Z.to_nat (amount st)) ticks) /\
    (Z.of_nat (length ticks) < amount st ->
     at_phase (run ticks st) = Looping /\
     amount (run ticks st) = amount st - Z.of_nat (length ticks) /\
     sender (run ticks st) = sender st /\
     period (run ticks st) = period st /\
     waiting (run ticks st) = waiting st /\
     crashed (run ticks st) = false) /\
    (amount st <= Z.of_nat (length ticks) ->
     sender (run ticks st) = chan_closed /\
     at_phase (run ticks st) = Exited /\
     crashed (run ticks st) = negb (waiting st =? 0)%nat).
Proof.
  induction 1 as [|e ticks He Hall IH]; intros st Hph Hcr Hpos Hrun.
  - simpl. rewrite firstn_nil. simpl. rewrite app_nil_r.
    split; [reflexivity|]. split; [intros _; repeat split; auto; lia|lia].
  - destruct e as [|t rc| |]; try discriminate.
    rewrite run_cons.
    assert (Er : react st (Tick t rc) = on_tick st t rc)
      by (unfold react; rewrite Hcr, Hph; reflexivity).
    rewrite Er. clear Er. unfold on_tick.
    destruct (Z.gtb_spec (amount st) 0) as [_|Hle]; [|lia].
    assert (En : Z.to_nat (amount st) = S (Z.to_nat (amount st - 1))) by lia.
    rewrite En. cbn [firstn received flat_map].
    fold (received (firstn (Z.to_nat (amount st - 1)) ticks)).
    simpl length. rewrite Nat2Z.inj_succ.
    destruct (Z.eqb_spec (amount st - 1) 0) as [E|E].
    + rewrite run_exited by reflexivity.
      rewrite E. cbn [Z.to_nat firstn received flat_map]. simpl.
      rewrite Hcr. simpl.
      split; [destruct rc; rewrite ?app_nil_r; reflexivity|].
      split; [lia|auto].
    + match goal with
      | |- context [run ticks ?s] => specialize (IH s)
      end.
      destruct IH as (IHe & IHlt & IHge); simpl; auto; try lia.
      simpl in IHe, IHlt, IHge.
      split; [|split].
      * rewrite IHe. destruct rc; [rewrite <- app_assoc|]; reflexivity.
      * intros Hlt. destruct IHlt as (A & B & C & D & F & G); [lia|].
        repeat split; auto. lia.
      * intros Hge. apply IHge. lia.
Qed.
(** A run of ticks on a negative countdown: the countdown is never
    touched, every received value is emitted, the loop goes on. *)
Lemma ticks_forever (ticks : list event) :
  Forall (fun e => is_tick e = true) ticks ->
  forall st, at_phase st = Looping -> crashed st = false -> amount st < 0 ->
    emitted (run ticks st) = emitted st ++ received ticks /\
    at_phase (run ticks st) = Looping /\
    amount (run ticks st) = amount st /\
    sender (run ticks st) = sender st /\
    period (run ticks st) = period st /\
    waiting (run ticks st) = waiting st /\
    crashed (run ticks st) = false.
Proof.
  induction 1 as [|e ticks He Hall IH]; intros st Hph Hcr Hneg.
  - simpl. rewrite app_nil_r. repeat split; auto.
  - destruct e as [|t rc| |]; try discriminate.
    rewrite run_cons.
    assert (Er : react st (Tick t rc) = on_tick st t rc)
      by (unfold react; rewrite Hcr, Hph; reflexivity).
    rewrite Er. clear Er. unfold on_tick.
    destruct (Z.gtb_spec (amount st) 0) as [Hgt|_]; [lia|].
    destruct (Z.eqb_spec (amount st) 0) as [E|_]; [lia|].
    match goal with
    | |- context [run ticks ?s] => specialize (IH s)
    end.
    destruct IH as (A & B & C & D & F & G & K); simpl; auto.
    simpl in A, B, C, D, F, G, K.
    repeat split; auto.
    rewrite A. cbn [received flat_map]. fold (received ticks).
    destruct rc; [rewrite <- app_assoc|]; reflexivity.
Qed.

(** A run of ticks with no caller of [Stop] blocked: either the goroutine
    has returned without a panic, or it is still in its loop with the
    receiver untouched. *)
Lemma ticks_idle (ticks : list event) :
  Forall (fun e => is_tick e = true) ticks ->
  forall st, at_phase st = Looping -> crashed st = false ->
    waiting st = O ->
    (at_phase (run ticks st) = Exited /\
     sender (run ticks st) = chan_closed) \/
    (at_phase (run ticks st) = Looping /\
     sender (run ticks st) = sender st /\
     period (run ticks st) = period st /\
     waiting (run ticks st) = O /\
     crashed (run ticks st) = false).
Proof.
  induction 1 as [|e ticks He Hall IH]; intros st Hph Hcr Hw.
  - right. simpl. auto.
  - destruct e as [|t rc| |]; try discriminate.
    rewrite run_cons.
    assert (Er : react st (Tick t rc) = on_tick st t rc)
      by (unfold react; rewrite Hcr, Hph; reflexivity).
    rewrite Er. clear Er. unfold on_tick.
    destruct ((if amount st >? 0 then amount st - 1 else amount st) =? 0).
    + left. rewrite run_exited by reflexivity. simpl. auto.
    + match goal with
      | |- context [run ticks ?s] => specialize (IH s)
      end.
      destruct IH as [IH | IH]; simpl; auto.
Qed.

(** The state a cancellable stream is in: after [Run] and ticks, with the
    channel still open. *)
Lemma open_after_ticks (r : Period) (ticks : list event) :
  Forall (fun e => is_tick e = true) ticks ->
  sender (run (Run :: ticks) (Start r)) = chan_open ->
  at_phase (run (Run :: ticks) (Start r)) = Looping /\
  period (run (Run :: ticks) (Start r))
  = set_running (set_done r chan_open) true /\
  waiting (run (Run :: ticks) (Start r)) = O /\
  crashed (run (Run :: ticks) (Start r)) = false.
Proof.
  intros Hall Hopen. rewrite run_cons in *.
  destruct (ticks_idle ticks Hall (react (Start r) Run))
    as [[_ Hc] | (A & _ & C & D & E)]; try reflexivity.
  - rewrite Hc in Hopen. discriminate.
  - auto.
Qed.

Lemma received_app (a b : list event) :
  received (a ++ b) = received a ++ received b.
Proof. unfold received. apply flat_map_app. Qed.
End StreamFacts.

(** X12.  With a positive repetition count N, on any run of ticks after the
    goroutine has begun, the stream delivers exactly the values of the first
    N ticks that found the consumer receiving, in order; it is closed if and
    only if at least N ticks have gone by; and nothing panics. *)
Theorem Start_emits_first_ticks `{Clock} (r : Period) (N : Z)
    (ticks : list event) :
  Repetitions r = N -> 0 < N ->
  Forall (fun e => is_tick e = true) ticks ->
  emitted (run (Run :: ticks) (Start r))
  = received (firstn (Z.to_nat N) ticks) /\
  (sender (run (Run :: ticks) (Start r)) = chan_closed
   <-> N <= Z.of_nat (length ticks)) /\
  crashed (run (Run :: ticks) (Start r)) = false.
Proof.
  intros HN Hpos Hall. rewrite run_cons.
  destruct (ticks_run ticks Hall (react (Start r) Run))
    as (He & Hlt & Hge); try reflexivity.
  { simpl. lia. }
  simpl amount in He, Hlt, Hge. rewrite HN in He, Hlt, Hge.
  split; [exact He|]. split.
  - split.
    + intros Hc. destruct (Z.le_gt_cases N (Z.of_nat (length ticks)))
        as [Hle|Hgt]; [exact Hle|].
      destruct (Hlt Hgt) as (_ & _ & Hs & _). rewrite Hs in Hc.
      discriminate.
    + intros Hle. apply Hge, Hle.
  - destruct (Z.le_gt_cases N (Z.of_nat (length ticks))) as [Hle|Hgt].
    + destruct (Hge Hle) as (_ & _ & Hcr). exact Hcr.
    + destruct (Hlt Hgt) as (_ & _ & _ & _ & _ & Hcr). exact Hcr.
Qed.

Lemma Start_emits_first_ticks_witness :
  emitted (@run recording_clock
             [Run; Tick (instant 1) true; Tick (instant 2) false;
              Tick (instant 3) true; Tick (instant 4) true]
             (Start (New tt 3 0 0 0 0 0 1)))
  = [instant 1; instant 3].
Proof.
  apply (@Start_emits_first_ticks recording_clock
           (New tt 3 0 0 0 0 0 1) 3
           [@Tick recording_clock (instant 1) true; @Tick recording_clock (instant 2) false;
            @Tick recording_clock (instant 3) true; @Tick recording_clock (instant 4) true]);
    [reflexivity | lia | repeat constructor].
Defined.

(** X13.  With a repetition count of 0 the goroutine still waits for the
    first tick and hands it to a receiving consumer before it closes the
    stream: the stream delivers one value when the consumer is receiving at
    that tick, none otherwise, and whatever follows changes nothing. *)
Theorem Start_zero_repetitions `{Clock} (r : Period) (t : Time)
    (receiving : bool) (evs : list event) :
  Repetitions r = 0 ->
  emitted (run (Run :: Tick t receiving :: evs) (Start r))
  = (if receiving then [t] else []) /\
  sender (run (Run :: Tick t receiving :: evs) (Start r)) = chan_closed /\
  crashed (run (Run :: Tick t receiving :: evs) (Start r)) = false.
Proof.
  intros H0. rewrite !run_cons.
  assert (Er : react (react (Start r) Run) (Tick t receiving)
               = exit_goroutine
                   (mkStream (set_running (set_done r chan_open) true) 0
                             chan_open true Looping
                             (if receiving then [t] else []) O false)).
  { unfold react, on_tick, Start. simpl. rewrite H0. simpl.
    destruct receiving; reflexivity. }
  rewrite Er. rewrite run_exited by reflexivity.
  simpl. auto.
Qed.

Lemma Start_zero_repetitions_witness :
  emitted (@run recording_clock
             [Run; Tick (instant 1) true; Tick (instant 2) true]
             (Start (New tt 0 0 0 0 0 0 1)))
  = [instant 1].
Proof.
  apply (@Start_zero_repetitions recording_clock (New tt 0 0 0 0 0 0 1)
           (instant 1) true [@Tick recording_clock (instant 2) true]).
  reflexivity.
Defined.

(** X14.  With a negative repetition count ticks never end the stream: on
    any run of ticks it stays open, the goroutine stays in its loop, and
    every value that found the consumer receiving is delivered. *)
Theorem Start_negative_repetitions `{Clock} (r : Period)
    (ticks : list event) :
  Repetitions r < 0 ->
  Forall (fun e => is_tick e = true) ticks ->
  emitted (run (Run :: ticks) (Start r)) = received ticks /\
  sender (run (Run :: ticks) (Start r)) = chan_open /\
  at_phase (run (Run :: ticks) (Start r)) = Looping /\
  crashed (run (Run :: ticks) (Start r)) = false.
Proof.
  intros Hneg Hall. rewrite run_cons.
  destruct (ticks_forever ticks Hall (react (Start r) Run))
    as (A & B & _ & D & _ & _ & K); try reflexivity.
  { simpl. exact Hneg. }
  auto.
Qed.

Lemma Start_negative_repetitions_witness :
  emitted (@run recording_clock
             [Run; Tick (instant 1) true; Tick (instant 2) true;
              Tick (instant 3) false]
             (Start (New tt (-1) 0 0 0 0 0 1)))
  = [instant 1; instant 2].
Proof.
  apply (@Start_negative_repetitions recording_clock
           (New tt (-1) 0 0 0 0 0 1)
           [@Tick recording_clock (instant 1) true; @Tick recording_clock (instant 2) true;
            @Tick recording_clock (instant 3) false]);
    [reflexivity | repeat constructor].
Defined.

(** X15.  Cancelling an open stream: after the goroutine has begun and any
    run of ticks has left the stream open, a call of Stop blocks in its send;
    once the goroutine takes it the stream is closed, nothing has panicked,
    no further value was delivered, [running] is false again, and another
    call of Stop returns at once. *)
Theorem Stop_cancels `{Clock} (r : Period) (ticks : list event) :
  Forall (fun e => is_tick e = true) ticks ->
  sender (run (Run :: ticks) (Start r)) = chan_open ->
  snd (Stop (run (Run :: ticks) (Start r))) = Waiting /\
  sender (run (Run :: ticks ++ [CallStop; TakeDone]) (Start r))
  = chan_closed /\
  crashed (run (Run :: ticks ++ [CallStop; TakeDone]) (Start r)) = false /\
  emitted (run (Run :: ticks ++ [CallStop; TakeDone]) (Start r))
  = emitted (run (Run :: ticks) (Start r)) /\
  running (period (run (Run :: ticks ++ [CallStop; TakeDone]) (Start r)))
  = false /\
  snd (Stop (run (Run :: ticks ++ [CallStop; TakeDone]) (Start r)))
  = Returned.
Proof.
  intros Hall Hopen.
  destruct (open_after_ticks r ticks Hall Hopen) as (Hph & Hp & Hw & Hcr).
  change (Run :: ticks ++ [CallStop; TakeDone])
    with ((Run :: ticks) ++ [CallStop; TakeDone]).
  rewrite run_app.
  set (st := run (Run :: ticks) (Start r)) in *.
  assert (HS : Stop st
               = (mkStream (period st) (amount st) (sender st) (ticking st)
                           (at_phase st) (emitted st) 1%nat false, Waiting)).
  { unfold Stop. rewrite Hp, Hw, Hcr. reflexivity. }
  split; [rewrite HS; reflexivity|].
  rewrite !run_cons.
  assert (E1 : react st CallStop
               = mkStream (period st) (amount st) (sender st) (ticking st)
                          (at_phase st) (emitted st) 1%nat false).
  { unfold react. rewrite Hcr, HS. reflexivity. }
  rewrite E1. unfold react at 1. cbn [crashed at_phase]. rewrite Hph.
  unfold on_done. cbn [waiting]. unfold run, exit_goroutine, Stop. simpl.
  auto.
Qed.

Lemma Stop_cancels_witness :
  sender (@run recording_clock
            [Run; Tick (instant 1) true; CallStop; TakeDone]
            (Start (New tt 3 0 0 0 0 0 1))) = chan_closed /\
  emitted (@run recording_clock
             [Run; Tick (instant 1) true; CallStop; TakeDone]
             (Start (New tt 3 0 0 0 0 0 1))) = [instant 1].
Proof.
  destruct (@Stop_cancels recording_clock (New tt 3 0 0 0 0 0 1)
              [@Tick recording_clock (instant 1) true])
    as (_ & Hc & _ & He & _); [repeat constructor | reflexivity |].
  split; [exact Hc | exact He].
Defined.

(** X16.  A call of Stop that the goroutine does not take before the last
    tick panics: with a positive repetition count N, when Stop is called on
    the running stream after fewer than N ticks and the ticks that follow
    complete the count, the goroutine returns on the last tick and closes
    [r.done] under the blocked sender.  The stream still delivers the values
    of the first N ticks and is closed. *)
Theorem Stop_raced_by_last_tick `{Clock} (r : Period) (N : Z)
    (before after : list event) :
  Repetitions r = N ->
  Forall (fun e => is_tick e = true) before ->
  Forall (fun e => is_tick e = true) after ->
  Z.of_nat (length before) < N ->
  N <= Z.of_nat (length before + length after) ->
  crashed (run (Run :: before ++ CallStop :: after) (Start r)) = true /\
  sender (run (Run :: before ++ CallStop :: after) (Start r))
  = chan_closed /\
  emitted (run (Run :: before ++ CallStop :: after) (Start r))
  = received (firstn (Z.to_nat N) (before ++ after)).
Proof.
  intros HN Ha Hb Hlt Hge.
  change (Run :: before ++ CallStop :: after)
    with ((Run :: before) ++ CallStop :: after).
  rewrite run_app. rewrite (run_cons Run before).
  destruct (ticks_run before Ha (react (Start r) Run))
    as (He & Hl & _); try reflexivity.
  { simpl. lia. }
  simpl amount in He, Hl. rewrite HN in He, Hl.
  destruct (Hl Hlt) as (Hph & Ham & Hs & Hp & Hw & Hcr).
  simpl in He, Hs, Hp, Hw.
  set (st := run before (react (Start r) Run)) in *.
  rewrite run_cons.
  assert (E1 : react st CallStop
               = mkStream (period st) (amount st) (sender st) (ticking st)
                          (at_phase st) (emitted st) 1%nat false).
  { unfold react, Stop. rewrite Hcr, Hp, Hw. reflexivity. }
  rewrite E1. clear E1.
  set (st' := mkStream (period st) (amount st) (sender st) (ticking st)
                       (at_phase st) (emitted st) 1%nat false).
  assert (Hrun : running (period st') = true)
    by (simpl; rewrite Hp; reflexivity).
  assert (Hpos : 0 < amount st') by (simpl; lia).
  destruct (ticks_run after Hb st' Hph eq_refl Hpos Hrun) as (He' & _ & Hg).
  simpl amount in He', Hg. simpl emitted in He'. simpl waiting in Hg.
  rewrite Ham in He', Hg.
  destruct Hg as (Hc & _ & Hx); [lia|].
  split; [exact Hx|]. split; [exact Hc|].
  rewrite He', He.
  rewrite firstn_app, received_app.
  rewrite (firstn_all2 before) by lia.
  replace (Z.to_nat N - length before)%nat
    with (Z.to_nat (N - Z.of_nat (length before))) by lia.
  reflexivity.
Qed.

Lemma Stop_raced_by_last_tick_witness :
  crashed (@run recording_clock
             [Run; Tick (instant 1) true; CallStop; Tick (instant 2) true]
             (Start (New tt 2 0 0 0 0 0 1))) = true.
Proof.
  apply (@Stop_raced_by_last_tick recording_clock (New tt 2 0 0 0 0 0 1) 2
           [@Tick recording_clock (instant 1) true] [@Tick recording_clock (instant 2) true]);
    [reflexivity | repeat constructor | repeat constructor
     | simpl; lia | simpl; lia].
Defined.

(** X17.  Two calls of Stop on the same open stream: when both are blocked
    in their send before the goroutine takes one, the goroutine returns on
    the first and closes [r.done] under the second, which panics. *)
Theorem second_Stop_panics `{Clock} (r : Period) (ticks : list event) :
  Forall (fun e => is_tick e = true) ticks ->
  sender (run (Run :: ticks) (Start r)) = chan_open ->
  crashed (run (Run :: ticks ++ [CallStop; CallStop; TakeDone]) (Start r))
  = true.
Proof.
  intros Hall Hopen.
  destruct (open_after_ticks r ticks Hall Hopen) as (Hph & Hp & Hw & Hcr).
  change (Run :: ticks ++ [CallStop; CallStop; TakeDone])
    with ((Run :: ticks) ++ [CallStop; CallStop; TakeDone]).
  rewrite run_app.
  set (st := run (Run :: ticks) (Start r)) in *.
  rewrite !run_cons.
  assert (E1 : react st CallStop
               = mkStream (period st) (amount st) (sender st) (ticking st)
                          (at_phase st) (emitted st) 1%nat false).
  { unfold react, Stop. rewrite Hcr, Hp, Hw. reflexivity. }
  rewrite E1.
  assert (E2 : react (mkStream (period st) (amount st) (sender st)
                               (ticking st) (at_phase st) (emitted st)
                               1%nat false) CallStop
               = mkStream (period st) (amount st) (sender st) (ticking st)
                          (at_phase st) (emitted st) 2%nat false).
  { unfold react, Stop. cbn [crashed period waiting]. rewrite Hp.
    reflexivity. }
  rewrite E2. unfold react. cbn [crashed at_phase]. rewrite Hph.
  reflexivity.
Qed.

Lemma second_Stop_panics_witness :
  crashed (@run recording_clock
             [Run; Tick (instant 1) true; CallStop; CallStop; TakeDone]
             (Start (New tt (-1) 0 0 0 0 0 1))) = true.
Proof.
  apply (@second_Stop_panics recording_clock (New tt (-1) 0 0 0 0 0 1)
           [@Tick recording_clock (instant 1) true]);
    [repeat constructor | reflexivity].
Defined.

(** X18.  A call of Stop made after Start has returned but before the
    goroutine has set [running] is lost: on a period whose [running] is
    false, as New and Parse build it, the call returns at once and the run
    goes on as if it had not been made. *)
Theorem early_Stop_is_lost `{Clock} (r : Period) (evs : list event) :
  running r = false ->
  Stop (Start r) = (Start r, Returned) /\
  run (CallStop :: evs) (Start r) = run evs (Start r).
Proof.
  intros Hr.
  assert (HS : Stop (Start r) = (Start r, Returned)).
  { unfold Stop, Start. cbn [period]. destruct r. simpl in *. subst.
    reflexivity. }
  split; [exact HS|].
  rewrite run_cons. unfold react at 1. cbn [crashed Start]. fold (Start r).
  rewrite HS. reflexivity.
Qed.

Lemma early_Stop_is_lost_witness :
  sender (@run recording_clock
            [CallStop; Run; Tick (instant 1) true; Tick (instant 2) true]
            (Start (New tt (-1) 0 0 0 0 0 1))) = chan_open.
Proof.
  rewrite (proj2 (@early_Stop_is_lost recording_clock
                    (New tt (-1) 0 0 0 0 0 1)
                    [@Run recording_clock; @Tick recording_clock (instant 1) true; @Tick recording_clock (instant 2) true]
                    eq_refl)).
  reflexivity.
Defined.

